(** * Wall extraction from floor-plan SVG files ([foor.py])

    A shallow embedding of the two functions of [foor.py] that carry logic,
    [parse_svg_for_walls] (the wall filter) and [parse_d_attribute] (the path
    interpreter), together with the Python built-ins they call, and the
    properties of the specification stated and proved against them.

    Conventions of the embedding.
    - A Python [str] is a Rocq [string]; the character with code [n] stands
      for the code point U+00[n], so the strings covered are those over
      U+0000..U+00FF.
    - A Python [float] is an IEEE 754 binary64 value, here a [spec_float]
      with precision 53 and maximal exponent 1024; arithmetic is the
      correctly rounded one of [SpecFloat].  The [int] constants of the
      source that meet floats ([0], [10], [100], [1]) are taken at their
      float value, to which Python converts them in every operation used.
    - A Python exception is the [Raise] outcome of the result type [Res];
      [try]/[except] is [catch]. *)

From Stdlib Require Import ZArith String Ascii Bool Lia.
From Stdlib.Floats Require Import SpecFloat.
From stdpp Require Import base option list gmap strings.

Local Open Scope string_scope.
Local Open Scope Z_scope.

(** ** Exceptions and results *)

Inductive exn := IndexError | ValueError | OverflowError | OSError.

(** [OutOfFuel] is not a Python outcome: it marks a loop of the embedding
    that was given too few iterations; [parse_d_attribute_terminates] shows
    it never leaves the interpreter. *)
Inductive Res (A : Type) :=
  | Ok (a : A)
  | Raise (e : exn)
  | OutOfFuel.
Arguments Ok {A} a.
Arguments Raise {A} e.
Arguments OutOfFuel {A}.

#[global] Instance Res_ret : MRet Res := fun A a => Ok a.
#[global] Instance Res_bind : MBind Res := fun A B f m =>
  match m with
  | Ok a => f a
  | Raise e => Raise e
  | OutOfFuel => OutOfFuel
  end.

(** [try: body except handled: handler] *)
Definition catch {A} (body : Res A) (handled : exn -> bool) (handler : Res A) : Res A :=
  match body with
  | Raise e => if handled e then handler else Raise e
  | r => r
  end.

Definition is_ValueError (e : exn) : bool :=
  match e with ValueError => true | _ => false end.
Definition is_IndexError_or_ValueError (e : exn) : bool :=
  match e with IndexError | ValueError => true | _ => false end.

(** [l[i]] for a non-negative index. *)
Definition index {A} (l : list A) (i : nat) : Res A :=
  match l !! i with
  | Some x => Ok x
  | None => Raise IndexError
  end.

(** ** Python string operations *)

Module Str.

Definition code (c : ascii) : N := N_of_ascii c.

(** [s.startswith(p)] *)
Fixpoint startswith (p s : string) : bool :=
  match p, s with
  | EmptyString, _ => true
  | String a p', String b s' => Ascii.eqb a b && startswith p' s'
  | String _ _, EmptyString => false
  end.

(** [sub in s] *)
Fixpoint contains (sub s : string) : bool :=
  startswith sub s ||
  match s with
  | EmptyString => false
  | String _ s' => contains sub s'
  end.

(** [s.find(sub)], with [None] for Python's [-1]. *)
Fixpoint find (sub s : string) : option nat :=
  if startswith sub s then Some O
  else
    match s with
    | EmptyString => None
    | String _ s' => S <$> find sub s'
    end.

(** Puts [c] in front of the first piece. *)
Definition push (c : ascii) (pieces : list string) : list string :=
  match pieces with
  | p :: ps => String c p :: ps
  | [] => [String c EmptyString]
  end.

(** [s.split(sep)] for a non-empty [sep]: the pieces between the
    non-overlapping occurrences of [sep], found left to right.  [skip] counts
    the characters of a matched separator still to be dropped. *)
Fixpoint split_go (sep : string) (skip : nat) (s : string) : list string :=
  match s with
  | EmptyString => [EmptyString]
  | String c s' =>
      match skip with
      | S k => split_go sep k s'
      | O =>
          if startswith sep s
          then EmptyString :: split_go sep (Nat.pred (String.length sep)) s'
          else push c (split_go sep O s')
      end
  end.

Definition split (sep s : string) : list string := split_go sep O s.

(** [s.replace(old, new)] for a non-empty [old]. *)
Fixpoint replace_go (old new : string) (skip : nat) (s : string) : string :=
  match s with
  | EmptyString => EmptyString
  | String c s' =>
      match skip with
      | S k => replace_go old new k s'
      | O =>
          if startswith old s
          then new +:+ replace_go old new (Nat.pred (String.length old)) s'
          else String c (replace_go old new O s')
      end
  end.

Definition replace (old new s : string) : string := replace_go old new O s.

(** [str.isspace] on one character ([Py_UNICODE_ISSPACE]), for U+0000..U+00FF:
    tab to carriage return, the four separators U+001C..U+001F, space, NEL and
    the no-break space. *)
Definition isspace (c : ascii) : bool :=
  let n := code c in
  ((9 <=? n) && (n <=? 13) || (28 <=? n) && (n <=? 32) || (n =? 133) || (n =? 160))%N.

(** [s.split()]: the maximal runs of characters that are not whitespace.
    [cur] is the run being read (reversed), if one is open. *)
Fixpoint split_ws_go (cur : option string) (s : string) : list string :=
  match s with
  | EmptyString =>
      match cur with Some w => [String.rev w] | None => [] end
  | String c s' =>
      if isspace c then
        match cur with
        | Some w => String.rev w :: split_ws_go None s'
        | None => split_ws_go None s'
        end
      else
        split_ws_go (Some (String c (default EmptyString cur))) s'
  end.

Definition split_ws (s : string) : list string := split_ws_go None s.

End Str.


(** ** Python floats *)

Definition float := spec_float.

Module Float.

Definition prec : Z := 53.
Definition emax : Z := 1024.

Definition zero : float := S754_zero false.
Definition nan : float := S754_nan.
Definition inf (neg : bool) : float := S754_infinity neg.

(** The float of an integer, rounded to nearest even. *)
Definition of_Z (n : Z) : float := binary_normalize prec emax n 0 false.

Definition mul : float -> float -> float := SFmul prec emax.
Definition add : float -> float -> float := SFadd prec emax.
Definition sub : float -> float -> float := SFsub prec emax.
Definition div : float -> float -> float := SFdiv prec emax.
(** [x < y], [x <= y]; [x > y] is [ltb y x] and [x >= y] is [leb y x].  Every
    comparison with a NaN is false. *)
Definition ltb : float -> float -> bool := SFltb.
Definition leb : float -> float -> bool := SFleb.

Definition is_finite (x : float) : bool :=
  match x with
  | S754_zero _ | S754_finite _ _ _ => true
  | S754_infinity _ | S754_nan => false
  end.

Definition is_nan (x : float) : bool :=
  match x with S754_nan => true | _ => false end.

(** [x ** 2] ([float_pow] with exponent [2.0]): a NaN stays a NaN, an
    infinity becomes [+inf], a zero becomes [+0.0]; otherwise the C library's
    [pow(x, 2.0)], taken here as the correctly rounded square, and an
    [OverflowError] when that result is infinite.  A C library whose [pow] is
    not correctly rounded can differ from this value in the last bit; the
    sign, the exception and the bound of the overflow are the same. *)
Definition pow2 (x : float) : Res float :=
  match x with
  | S754_nan => Ok S754_nan
  | S754_infinity _ => Ok (S754_infinity false)
  | S754_zero _ => Ok (S754_zero false)
  | S754_finite _ _ _ =>
      let r := mul x x in
      if is_finite r then Ok r else Raise OverflowError
  end.

(** [math.sqrt(x)]: the correctly rounded square root; a [ValueError]
    ("math domain error") when the result is a NaN and [x] is not. *)
Definition math_sqrt (x : float) : Res float :=
  let r := SFsqrt prec emax x in
  if is_nan r && negb (is_nan x) then Raise ValueError else Ok r.

(** The binary64 value nearest to [(-1)^neg * M * 10^E] (ties to even), for
    [0 <= M]: what [_Py_dg_strtod] returns for the digits [M] and the decimal
    exponent [E], infinite on overflow and a signed zero on underflow.  For a
    negative [E] the quotient is computed with at least 56 bits and a sticky
    last bit, which rounds as the exact quotient does. *)
Definition of_decimal (neg : bool) (M E : Z) : float :=
  if M =? 0 then S754_zero neg
  else if 0 <=? E then
    binary_normalize prec emax (cond_Zopp neg (M * 10 ^ E)) 0 false
  else
    let D := 10 ^ (- E) in
    let k := Z.max 0 (Z.log2 D - Z.log2 M + 56) in
    let (q, r) := Z.div_eucl (M * 2 ^ k) D in
    let m := 2 * q + (if r =? 0 then 0 else 1) in
    binary_normalize prec emax (cond_Zopp neg m) (- k - 1) false.

(** *** [float(s)] for a string [s] *)

Definition is_digit (c : ascii) : bool :=
  let n := Str.code c in ((48 <=? n) && (n <=? 57))%N.
Definition digit_val (c : ascii) : Z := Z.of_N (Str.code c) - 48.

(** [Py_ISSPACE]: space, and tab to carriage return. *)
Definition Py_ISSPACE (c : ascii) : bool :=
  let n := Str.code c in ((n =? 32) || (9 <=? n) && (n <=? 13))%N.

(** [Py_TOLOWER] *)
Definition Py_TOLOWER (c : ascii) : ascii :=
  let n := Str.code c in
  if ((65 <=? n) && (n <=? 90))%N then ascii_of_N (n + 32) else c.

Fixpoint is_ascii (s : string) : bool :=
  match s with
  | EmptyString => true
  | String c s' => (Str.code c <? 128)%N && is_ascii s'
  end.

(** [_PyUnicode_TransformDecimalAndSpaceToASCII] on a string that is not
    ASCII: a whitespace character becomes a space, and the string is cut at
    the first other character from U+007F on, which becomes [?] (no code
    point of U+0080..U+00FF is a decimal digit). *)
Fixpoint transform_non_ascii (s : string) : string :=
  match s with
  | EmptyString => EmptyString
  | String c s' =>
      if (Str.code c <? 127)%N then String c (transform_non_ascii s')
      else if Str.isspace c then String " " (transform_non_ascii s')
      else "?"
  end.

Definition TransformDecimalAndSpaceToASCII (s : string) : string :=
  if is_ascii s then s else transform_non_ascii s.

(** The underscore pass of [_Py_string_to_number_with_underscores]: an
    underscore is allowed only between two digits; [prev] is the previous
    character. *)
Fixpoint remove_underscores (prev : ascii) (s : string) : option string :=
  match s with
  | EmptyString => if Ascii.eqb prev "_" then None else Some EmptyString
  | String c s' =>
      if Ascii.eqb c "_" then
        if is_digit prev then remove_underscores c s' else None
      else if Ascii.eqb prev "_" && negb (is_digit c) then None
      else String c <$> remove_underscores c s'
  end.

Fixpoint lstrip (s : string) : string :=
  match s with
  | EmptyString => EmptyString
  | String c s' => if Py_ISSPACE c then lstrip s' else s
  end.

Definition strip (s : string) : string :=
  String.rev (lstrip (String.rev (lstrip s))).

(** Reads the digits at the head of [s]: their value on top of [acc], their
    number on top of [n], and the rest of [s]. *)
Fixpoint span_digits (acc n : Z) (s : string) : Z * Z * string :=
  match s with
  | String c s' =>
      if is_digit c then span_digits (10 * acc + digit_val c) (n + 1) s'
      else (acc, n, s)
  | EmptyString => (acc, n, s)
  end.

(** Skips the zeros at the head of [s] and counts them. *)
Fixpoint skip_zeros (n : Z) (s : string) : Z * string :=
  match s with
  | String c s' => if Ascii.eqb c "0" then skip_zeros (n + 1) s' else (n, s)
  | EmptyString => (n, s)
  end.

Definition read_sign (s : string) : bool * string :=
  match s with
  | String "-" s' => (true, s')
  | String "+" s' => (false, s')
  | _ => (false, s)
  end.

Definition MAX_ABS_EXP : Z := 1100000000.
Definition MAX_DIGITS : Z := 1000000000.

(** The exponent part of [_Py_dg_strtod], read at [s]: the exponent and the
    rest of the input; without a digit after [e] nothing is consumed. *)
Definition read_exponent (s : string) : Z * string :=
  match s with
  | String c s1 =>
      if Ascii.eqb c "e" || Ascii.eqb c "E" then
        let '(esign, s2) := read_sign s1 in
        let '(lz, s3) := skip_zeros 0 s2 in
        let '(abs_exp, nd, s4) := span_digits 0 0 s3 in
        if (nd =? 0) && (lz =? 0) then (0, s)
        else
          let e := if (9 <? nd) || (MAX_ABS_EXP <? abs_exp) then MAX_ABS_EXP else abs_exp in
          (if esign then - e else e, s4)
      else (0, s)
  | EmptyString => (0, s)
  end.

(** [_Py_dg_strtod]: sign, digits with an optional point, optional exponent.
    [None] is its parse error (nothing consumed); otherwise the value and the
    unread rest. *)
Definition dg_strtod (s : string) : option (float * string) :=
  let '(sign, s1) := read_sign s in
  let '(lz0, s2) := skip_zeros 0 s1 in
  let '(m1, n1, s3) := span_digits 0 0 s2 in
  let '(m, ndigits, fraclen, lz, s4) :=
    match s3 with
    | String "." s5 =>
        if n1 =? 0 then
          let '(z, s6) := skip_zeros 0 s5 in
          let '(m2, n2, s7) := span_digits 0 0 s6 in
          (m2, n2, z + n2, lz0 + z, s7)
        else
          let '(m2, n2, s7) := span_digits m1 0 s5 in
          (m2, n1 + n2, n2, lz0, s7)
    | _ => (m1, n1, 0, lz0, s3)
    end in
  if (ndigits =? 0) && (lz =? 0) then None
  else if (MAX_DIGITS <? ndigits) || (MAX_DIGITS <? fraclen) then None
  else
    let '(e, s8) := read_exponent s4 in
    Some (of_decimal sign m (e - fraclen), s8).

Fixpoint case_insensitive_match (s t : string) : option string :=
  match t with
  | EmptyString => Some s
  | String b t' =>
      match s with
      | String a s' =>
          if Ascii.eqb (Py_TOLOWER a) b then case_insensitive_match s' t' else None
      | EmptyString => None
      end
  end.

(** [_Py_parse_inf_or_nan] *)
Definition parse_inf_or_nan (s : string) : option (float * string) :=
  let '(negate, s1) := read_sign s in
  match case_insensitive_match s1 "inf" with
  | Some s2 =>
      match case_insensitive_match s2 "inity" with
      | Some s3 => Some (inf negate, s3)
      | None => Some (inf negate, s2)
      end
  | None =>
      match case_insensitive_match s1 "nan" with
      | Some s2 => Some (nan, s2)
      | None => None
      end
  end.

(** [float_from_string_inner]: surrounding whitespace is dropped and the
    whole of what is left must be one number, infinity or NaN. *)
Definition from_string_inner (s : string) : Res float :=
  let t := strip s in
  let parsed :=
    match dg_strtod t with
    | Some r => Some r
    | None => parse_inf_or_nan t
    end in
  match parsed with
  | Some (x, EmptyString) => Ok x
  | _ => Raise ValueError
  end.

(** [float(s)] *)
Definition of_string (s : string) : Res float :=
  let a := TransformDecimalAndSpaceToASCII s in
  if Str.contains "_" a then
    match remove_underscores "000" a with
    | Some b => from_string_inner b
    | None => Raise ValueError
    end
  else from_string_inner a.

End Float.


(** ** The document *)

(** An element of the tree built by [ET.parse]: its tag, its attribute
    dictionary and its children. *)
#[warnings="-register-all"]
Inductive Element := mkElement {
  tag : string;
  attrib : gmap string string;
  children : list Element
}.

(** [root.iter()]: the element and all its descendants, in document order. *)
Fixpoint iter (element : Element) : list Element :=
  match element with
  | mkElement _ _ cs => element :: flat_map iter cs
  end.

(** What [ET.parse(svg_file_path)] did: a tree, an [ET.ParseError] with its
    text, or another exception (an unreadable file), which the source does not
    handle. *)
Inductive ET_parse :=
  | Parsed (root : Element)
  | ParseError (e : string)
  | OtherError (e : exn).

(** The dictionary appended to [wall_paths]. *)
Record PathRecord := mkPathRecord {
  wp_id : string;
  wp_d : string;
  wp_style : string
}.

(** The lines printed by [parse_svg_for_walls]. *)
Inductive console_line :=
  | Error_parsing_SVG_file (e : string)
  | Detected_potential_wall_paths (n : nat)
  | Sample_path_data (sample : list PathRecord).

Definition point : Type := float * float.

(** ** The functions of [foor.py] *)

(** [d_attr.replace(',', ' ').split()] *)
Definition tokenize (d_attr : string) : list string :=
  Str.split_ws (Str.replace "," " " d_attr).

(** [l[-1]] *)
Definition index_last {A} (l : list A) : Res A :=
  match last l with
  | Some x => Ok x
  | None => Raise IndexError
  end.

Definition calculate_distance (x1 y1 x2 y2 : float) : Res float :=
  dx2 ← Float.pow2 (Float.sub x2 x1);
  dy2 ← Float.pow2 (Float.sub y2 y1);
  Float.math_sqrt (Float.add dx2 dy2).

(** The float literal [0.5]. *)
Definition half : float := Float.of_decimal false 5 (-1).

(** The value of the variable [stroke_width] after lines 41-47. *)
Definition stroke_width (style_attr : string) : Res float :=
  if Str.contains "stroke-width" style_attr then
    catch
      (after ← index (Str.split "stroke-width:" style_attr) 1;
       declaration ← index (Str.split ";" after) 0;
       Float.of_string (Str.replace "px" "" declaration))
      is_ValueError
      (Ok Float.zero)
  else Ok Float.zero.

(** The test of lines 55-58 on the tokens of [d_attr]: does the element join
    [wall_paths]?  It runs inside the [try] of line 54. *)
Definition segment_long_enough (min_segment_length : float) (commands : list string) : Res bool :=
  c1 ← index commands 1;
  x1 ← Float.of_string c1;
  c2 ← index commands 2;
  y1 ← Float.of_string c2;
  c4 ← index commands 4;
  x2 ← Float.of_string c4;
  c5 ← index commands 5;
  y2 ← Float.of_string c5;
  segment_length ← calculate_distance x1 y1 x2 y2;
  Ok (Float.leb min_segment_length segment_length).

(** The body of the [for] loop of [parse_svg_for_walls], lines 34-65, from
    the list [wall_paths] before the element to the list after it. *)
Definition visit (min_segment_length : float) (element : Element)
    (wall_paths : list PathRecord) : Res (list PathRecord) :=
  local ← index_last (Str.split "}" (tag element));
  if String.eqb local "path" then
    let path_id := default "N/A" (attrib element !! "id") in
    let d_attr := default "" (attrib element !! "d") in
    let style_attr := default "" (attrib element !! "style") in
    w ← stroke_width style_attr;
    if Float.ltb half w then
      let commands := tokenize d_attr in
      if (4 <=? length commands)%nat then
        catch
          (long ← segment_long_enough min_segment_length commands;
           if long : bool
           then Ok (wall_paths ++ [mkPathRecord path_id d_attr style_attr])%list
           else Ok wall_paths)
          is_IndexError_or_ValueError
          (Ok wall_paths)
      else Ok wall_paths
    else Ok wall_paths
  else Ok wall_paths.

Fixpoint for_each (min_segment_length : float) (elements : list Element)
    (wall_paths : list PathRecord) : Res (list PathRecord) :=
  match elements with
  | [] => Ok wall_paths
  | element :: rest =>
      wall_paths' ← visit min_segment_length element wall_paths;
      for_each min_segment_length rest wall_paths'
  end.

(** [parse_svg_for_walls], given what [ET.parse] did with the file: the lines
    printed and the list returned. *)
Definition parse_svg_for_walls (parsed : ET_parse) (min_segment_length : float)
    : Res (list console_line * list PathRecord) :=
  match parsed with
  | OtherError e => Raise e
  | ParseError e => Ok ([Error_parsing_SVG_file e], [])
  | Parsed root =>
      wall_paths ← for_each min_segment_length (iter root) [];
      let detected := Detected_potential_wall_paths (length wall_paths) in
      Ok (match wall_paths with
          | [] => [detected]
          | _ => [detected; Sample_path_data (take 3 wall_paths)]
          end, wall_paths)
  end.

(** The default [min_segment_length=10]. *)
Definition default_min_segment_length : float := Float.of_Z 10.

(** The state of the [while] loop of [parse_d_attribute]. *)
Record interp := mkInterp {
  i : nat;
  current_point : point;
  points : list point
}.

(** One iteration of the loop, lines 90-107. *)
Definition step (scale : float) (commands : list string) (st : interp) : Res interp :=
  cmd ← index commands (i st);
  if String.eqb cmd "M" || String.eqb cmd "L" then
    a ← index commands (i st + 1)%nat;
    x ← Float.of_string a;
    b ← index commands (i st + 2)%nat;
    y ← Float.of_string b;
    let p := (Float.mul x scale, Float.mul y scale) in
    Ok (mkInterp (i st + 3)%nat p (points st ++ [p])%list)
  else if String.eqb cmd "H" then
    a ← index commands (i st + 1)%nat;
    x ← Float.of_string a;
    let p := (Float.mul x scale, snd (current_point st)) in
    Ok (mkInterp (i st + 2)%nat p (points st ++ [p])%list)
  else if String.eqb cmd "V" then
    a ← index commands (i st + 1)%nat;
    y ← Float.of_string a;
    let p := (fst (current_point st), Float.mul y scale) in
    Ok (mkInterp (i st + 2)%nat p (points st ++ [p])%list)
  else if String.eqb cmd "Z" then
    first ← index (points st) 0;
    Ok (mkInterp (i st + 1)%nat (current_point st) (points st ++ [first])%list)
  else
    Ok (mkInterp (i st + 1)%nat (current_point st) (points st)).

(** [while i < len(commands)], with a bound on the number of iterations. *)
Fixpoint while_loop (fuel : nat) (scale : float) (commands : list string)
    (st : interp) : Res interp :=
  if (i st <? length commands)%nat then
    match fuel with
    | O => OutOfFuel
    | S fuel' =>
        st' ← step scale commands st;
        while_loop fuel' scale commands st'
    end
  else Ok st.

Definition initial : interp := mkInterp 0 (Float.zero, Float.zero) [].

(** Lines 85-109, from the list [commands] on. *)
Definition interpret (scale : float) (commands : list string) : Res (list point) :=
  st ← while_loop (length commands) scale commands initial;
  Ok (points st).

Definition parse_d_attribute (d_attr : string) (scale : float) : Res (list point) :=
  interpret scale (tokenize d_attr).

(** The default [scale=100]. *)
Definition default_scale : float := Float.of_Z 100.

(** [visualize_wall_paths], lines 112-123: the loop that interprets each
    detected wall at scale 100 and adds a patch for each non-empty list of
    points.  The figure, the axes and the display are not part of the
    embedding: what the function does is given by the lines printed and the
    lists of vertices handed to [Path], in the order the patches are added. *)
Fixpoint add_patches (wall_paths : list PathRecord)
    (patches : list (list point)) : Res (list (list point)) :=
  match wall_paths with
  | [] => Ok patches
  | path_data :: rest =>
      points ← parse_d_attribute (wp_d path_data) default_scale;
      add_patches rest
        (match points with
         | [] => patches
         | _ => (patches ++ [points])%list
         end)
  end.

Definition visualize_wall_paths (parsed : ET_parse)
    : Res (list console_line * list (list point)) :=
  printed_and_walls ← parse_svg_for_walls parsed default_min_segment_length;
  patches ← add_patches (snd printed_and_walls) [];
  Ok (fst printed_and_walls, patches).

(** ** Notions used by the properties *)

(** The command letters the interpreter knows. *)
Definition recognised (cmd : string) : bool :=
  String.eqb cmd "M" || String.eqb cmd "L" || String.eqb cmd "H"
  || String.eqb cmd "V" || String.eqb cmd "Z".

(** How many of the following tokens a command reads as coordinates. *)
Definition coordinates (cmd : string) : nat :=
  if String.eqb cmd "M" || String.eqb cmd "L" then 2
  else if String.eqb cmd "H" || String.eqb cmd "V" then 1
  else 0.

(** The states the loop of [parse_d_attribute] goes through. *)
Inductive reaches (scale : float) (commands : list string) : interp -> Prop :=
  | reaches_initial : reaches scale commands initial
  | reaches_step st st' :
      reaches scale commands st ->
      (i st < length commands)%nat ->
      step scale commands st = Ok st' ->
      reaches scale commands st'.

(** The token at position [k] is a command that lacks coordinates: [M] or [L]
    followed by fewer than two tokens, or [H] or [V] in the last place. *)
Definition truncated (commands : list string) (k : nat) : Prop :=
  exists tok, commands !! k = Some tok /\
    ((tok = "M" \/ tok = "L") /\ (length commands < k + 3)%nat
     \/ (tok = "H" \/ tok = "V") /\ length commands = (k + 1)%nat).

(** The state one token further, nothing else changed. *)
Definition advance (st : interp) : interp :=
  mkInterp (i st + 1)%nat (current_point st) (points st).

(** The same state over a list of commands with one more token in front. *)
Definition shift (st : interp) : interp :=
  mkInterp (S (i st)) (current_point st) (points st).

#[global] Instance Res_fmap : FMap Res := fun A B f m =>
  match m with
  | Ok a => Ok (f a)
  | Raise e => Raise e
  | OutOfFuel => OutOfFuel
  end.

(** The three attributes [parse_svg_for_walls] reads, with their defaults,
    and the record made of them. *)
Definition path_id_of (element : Element) : string :=
  default "N/A" (attrib element !! "id").
Definition d_attr_of (element : Element) : string :=
  default "" (attrib element !! "d").
Definition style_attr_of (element : Element) : string :=
  default "" (attrib element !! "style").
Definition to_record (element : Element) : PathRecord :=
  mkPathRecord (path_id_of element) (d_attr_of element) (style_attr_of element).

(** The tag without its namespace: what follows the last [}]. *)
Definition local_name (t : string) : string :=
  default t (last (Str.split "}" t)).

(** The distance between the points read from tokens 1, 2 and tokens 4, 5. *)
Definition first_segment_length (commands : list string) : Res float :=
  c1 ← index commands 1;
  x1 ← Float.of_string c1;
  c2 ← index commands 2;
  y1 ← Float.of_string c2;
  c4 ← index commands 4;
  x2 ← Float.of_string c4;
  c5 ← index commands 5;
  y2 ← Float.of_string c5;
  calculate_distance x1 y1 x2 y2.

(** The wall filter in the words of the specification: a path element, whose
    style yields a stroke width above 0.5, and whose first segment is at
    least [min_segment_length] long. *)
Definition is_wall (min_segment_length : float) (element : Element) : bool :=
  String.eqb (local_name (tag element)) "path"
  && match stroke_width (style_attr_of element) with
     | Ok w => Float.ltb half w
     | _ => false
     end
  && match first_segment_length (tokenize (d_attr_of element)) with
     | Ok len => Float.leb min_segment_length len
     | _ => false
     end.

(** The exception an element makes [parse_svg_for_walls] raise, if any. *)
Definition faults (min_segment_length : float) (element : Element) : option exn :=
  match visit min_segment_length element [] with
  | Raise e => Some e
  | _ => None
  end.


(** A document used in the examples: an [svg] root holding a qualified path
    that is a wall, a path with too short a segment, and a group of two paths
    on either side of the stroke-width threshold. *)
Definition floor_plan : Element :=
  mkElement "{http://www.w3.org/2000/svg}svg" ∅
    [ mkElement "{http://www.w3.org/2000/svg}path"
        {[ "id" := "p1"; "d" := "M 0 0 L 20 0";
           "style" := "fill:none;stroke-width:2px;" ]} [];
      mkElement "path"
        {[ "d" := "M 0 0 L 5 0"; "style" := "fill:none;stroke-width:2px;" ]} [];
      mkElement "g" ∅
        [ mkElement "path"
            {[ "d" := "M 0,0 L 0,10 Z"; "style" := "stroke-width:0.50001px" ]} [];
          mkElement "path"
            {[ "id" := "thin"; "d" := "M 0,0 L 0,10 Z";
               "style" := "stroke-width:0.5px" ]} [] ] ].

(** ** The interpreter read off the remaining tokens

    [run] follows the loop of [parse_d_attribute] on the tokens not yet
    consumed instead of an index into all of them; [interpret_run] proves it
    gives the result of the loop.  It returns the current point together with
    the points. *)
Fixpoint run (scale : float) (toks : list string) (cp : point)
    (pts : list point) : Res (point * list point) :=
  match toks with
  | [] => Ok (cp, pts)
  | cmd :: rest =>
      if String.eqb cmd "M" || String.eqb cmd "L" then
        match rest with
        | [] => Raise IndexError
        | a :: rest1 =>
            match Float.of_string a with
            | Ok x =>
                match rest1 with
                | [] => Raise IndexError
                | b :: rest2 =>
                    match Float.of_string b with
                    | Ok y =>
                        let p := (Float.mul x scale, Float.mul y scale) in
                        run scale rest2 p (pts ++ [p])%list
                    | Raise e => Raise e
                    | OutOfFuel => OutOfFuel
                    end
                end
            | Raise e => Raise e
            | OutOfFuel => OutOfFuel
            end
        end
      else if String.eqb cmd "H" then
        match rest with
        | [] => Raise IndexError
        | a :: rest1 =>
            match Float.of_string a with
            | Ok x =>
                let p := (Float.mul x scale, snd cp) in
                run scale rest1 p (pts ++ [p])%list
            | Raise e => Raise e
            | OutOfFuel => OutOfFuel
            end
        end
      else if String.eqb cmd "V" then
        match rest with
        | [] => Raise IndexError
        | a :: rest1 =>
            match Float.of_string a with
            | Ok y =>
                let p := (fst cp, Float.mul y scale) in
                run scale rest1 p (pts ++ [p])%list
            | Raise e => Raise e
            | OutOfFuel => OutOfFuel
            end
        end
      else if String.eqb cmd "Z" then
        match pts with
        | [] => Raise IndexError
        | first :: _ => run scale rest cp (pts ++ [first])%list
        end
      else run scale rest cp pts
  end.

(** Can [s] be read as a float? *)
Definition is_float (s : string) : bool :=
  match Float.of_string s with Ok _ => true | _ => false end.

(** The token lists the interpreter accepts: each [M] or [L] with two float
    literals after it, each [H] or [V] with one, and no [Z] before the first
    of them; [started] tells whether a point has been made. *)
Fixpoint well_formed (started : bool) (toks : list string) : bool :=
  match toks with
  | [] => true
  | cmd :: rest =>
      if String.eqb cmd "M" || String.eqb cmd "L" then
        match rest with
        | a :: b :: rest2 => is_float a && is_float b && well_formed true rest2
        | _ => false
        end
      else if String.eqb cmd "H" || String.eqb cmd "V" then
        match rest with
        | a :: rest1 => is_float a && well_formed true rest1
        | _ => false
        end
      else if String.eqb cmd "Z" then started && well_formed started rest
      else well_formed started rest
  end.

(** A float that is a NaN or carries the sign [+]. *)
Definition plus_signed (x : float) : bool :=
  match x with
  | S754_nan => true
  | S754_zero s | S754_infinity s | S754_finite s _ _ => negb s
  end.

(** Do all the characters of [s] satisfy [P]? *)
Fixpoint all_chars (P : ascii -> bool) (s : string) : bool :=
  match s with
  | EmptyString => true
  | String c s' => P c && all_chars P s'
  end.

(** A character that separates tokens: whitespace or a comma. *)
Definition is_separator (c : ascii) : bool :=
  Str.isspace c || Ascii.eqb c ",".

(** Is the list of points empty? *)
Definition no_points (pts : list point) : bool :=
  match pts with [] => true | _ => false end.

(** * Properties of the path interpreter *)

Ltac res_cases :=
  repeat match goal with
    | |- context [match ?x with Ok _ => _ | Raise _ => _ | OutOfFuel => _ end] =>
        destruct x eqn:?; simpl
    end.

Lemma of_string_cases s :
  (exists x, Float.of_string s = Ok x) \/ Float.of_string s = Raise ValueError.
Proof.
  unfold Float.of_string, Float.from_string_inner.
  repeat case_match; eauto.
Qed.

Lemma of_string_command cmd :
  recognised cmd = true -> Float.of_string cmd = Raise ValueError.
Proof.
  unfold recognised. rewrite !orb_true_iff, !String.eqb_eq.
  intros [[[[->| ->]| ->]| ->]| ->]; reflexivity.
Qed.

Section Loop.
Variables (scale : float) (commands : list string).

Lemma while_loop_unfold fuel st :
  while_loop fuel scale commands st =
    if (i st <? length commands)%nat then
      match fuel with
      | O => OutOfFuel
      | S fuel' =>
          st' ← step scale commands st;
          while_loop fuel' scale commands st'
      end
    else Ok st.
Proof. destruct fuel; reflexivity. Qed.

Lemma step_advances st st' :
  step scale commands st = Ok st' -> (i st < i st')%nat.
Proof.
  unfold step, mbind, Res_bind. res_cases; try discriminate;
    repeat case_match; res_cases; try discriminate;
    intros [= <-]; simpl; lia.
Qed.

Lemma step_unrecognised st tok :
  commands !! i st = Some tok -> recognised tok = false ->
  step scale commands st = Ok (advance st).
Proof.
  intros Hi Hr. unfold step, index. rewrite Hi. simpl.
  unfold recognised in Hr. rewrite !orb_false_iff in Hr.
  destruct Hr as [[[[-> ->] ->] ->] ->]. reflexivity.
Qed.

Lemma step_Z_empty st :
  commands !! i st = Some "Z" -> points st = [] ->
  step scale commands st = Raise IndexError.
Proof.
  intros Hi Hp. unfold step, index. rewrite Hi, Hp. reflexivity.
Qed.

(** Any two amounts of fuel that cover the tokens left give the same run. *)
Lemma while_loop_fuel f1 : forall f2 st,
  (length commands - i st <= f1)%nat -> (length commands - i st <= f2)%nat ->
  while_loop f1 scale commands st = while_loop f2 scale commands st.
Proof.
  induction f1 as [|f1 IH]; intros f2 st H1 H2; rewrite !while_loop_unfold;
    destruct (Nat.ltb_spec (i st) (length commands)) as [Hlt|Hge]; try reflexivity;
    try lia.
  destruct f2 as [|f2]; [lia|].
  unfold mbind, Res_bind.
  destruct (step scale commands st) as [st'| |] eqn:Hs; try reflexivity.
  apply step_advances in Hs. apply IH; lia.
Qed.

Lemma reaches_run st :
  reaches scale commands st ->
  while_loop (length commands) scale commands initial
  = while_loop (length commands - i st) scale commands st.
Proof.
  induction 1 as [|st st' Hr IH Hlt Hs].
  - simpl. rewrite Nat.sub_0_r. reflexivity.
  - rewrite IH, (while_loop_unfold (_ - i st)).
    destruct (Nat.ltb_spec (i st) (length commands)); [|lia].
    destruct (length commands - i st)%nat as [|n] eqn:Hn; [lia|].
    unfold mbind, Res_bind. rewrite Hs.
    apply step_advances in Hs. apply while_loop_fuel; lia.
Qed.

Lemma reaches_raise st e :
  reaches scale commands st -> (i st < length commands)%nat ->
  step scale commands st = Raise e ->
  interpret scale commands = Raise e.
Proof.
  intros Hr Hlt Hs. unfold interpret. rewrite (reaches_run st Hr).
  rewrite while_loop_unfold.
  destruct (Nat.ltb_spec (i st) (length commands)); [|lia].
  destruct (length commands - i st)%nat as [|n] eqn:Hn; [lia|].
  unfold mbind, Res_bind. rewrite Hs. reflexivity.
Qed.

(** The loop never runs out of the fuel [parse_d_attribute] gives it. *)
Lemma while_loop_terminates fuel : forall st,
  (length commands - i st <= fuel)%nat ->
  while_loop fuel scale commands st <> OutOfFuel.
Proof.
  induction fuel as [|fuel IH]; intros st Hf; rewrite while_loop_unfold;
    destruct (Nat.ltb_spec (i st) (length commands)); try discriminate; try lia.
  unfold mbind, Res_bind.
  destruct (step scale commands st) as [st'| |] eqn:Hs; try discriminate.
  - apply step_advances in Hs. apply IH. lia.
  - exfalso. revert Hs. unfold step, mbind, Res_bind, index.
    repeat case_match; try discriminate;
      repeat match goal with
        | H : Float.of_string ?a = OutOfFuel |- _ =>
            destruct (of_string_cases a) as [[? ?]| ?]; congruence
        end.
Qed.

Lemma truncated_not_coordinate k a x :
  truncated commands k -> commands !! k = Some a -> Float.of_string a = Ok x -> False.
Proof.
  intros (tok & Hk & Hc) Ha Hx. rewrite Ha in Hk. injection Hk as ->.
  rewrite of_string_command in Hx; [discriminate|].
  destruct Hc as [[[-> | ->] _]|[[-> | ->] _]]; reflexivity.
Qed.

Lemma while_loop_truncated fuel : forall st,
  (length commands - i st <= fuel)%nat ->
  (exists k, (i st <= k)%nat /\ truncated commands k) ->
  while_loop fuel scale commands st = Raise IndexError
  \/ while_loop fuel scale commands st = Raise ValueError.
Proof.
  induction fuel as [|fuel IH]; intros st Hf (k & Hk & Ht);
    assert (k < length commands)%nat
      by (destruct Ht as (tok & Hl & _); eapply lookup_lt_Some; eauto);
    rewrite while_loop_unfold;
    destruct (Nat.ltb_spec (i st) (length commands)); try lia.
  unfold mbind, Res_bind.
  destruct (step scale commands st) as [st'| |] eqn:Hs.
  - pose proof (step_advances _ _ Hs) as Hadv.
    apply IH; [lia|]. exists k. split; [|exact Ht].
    revert Hs. unfold step, mbind, Res_bind, index.
    destruct (commands !! i st) as [cmd|] eqn:Hcmd; [|discriminate].
    destruct (decide (k = i st)) as [->|Hne0].
    { destruct Ht as (tok & Hl & Hc). rewrite Hcmd in Hl. injection Hl as ->.
      destruct Hc as [[[-> | ->] Hlen]|[[-> | ->] Hlen]]; simpl;
        repeat case_match; try discriminate;
        repeat match goal with
          | H : commands !! _ = Some _ |- _ => apply lookup_lt_Some in H
          end; lia. }
    repeat case_match; try discriminate; intros [= <-]; simplify_eq; simpl;
      repeat match goal with
        | H : Float.of_string ?a = Ok _, L : commands !! ?j = Some ?a |- _ =>
            destruct (decide (k = j)) as [->|?];
            [exfalso; exact (truncated_not_coordinate _ _ _ Ht L H)|];
            clear H
        end; lia.
  - revert Hs. unfold step, mbind, Res_bind, index.
    repeat case_match; try discriminate; intros [= <-]; simplify_eq; auto;
      match goal with
      | H : Float.of_string ?a = Raise ?e |- _ =>
          destruct (of_string_cases a) as [[? ?]| ?]; [congruence|];
          right; congruence
      end.
  - exfalso. apply (while_loop_terminates (S fuel) st Hf).
    rewrite while_loop_unfold.
    destruct (Nat.ltb_spec (i st) (length commands)); [|lia].
    unfold mbind, Res_bind. rewrite Hs. reflexivity.
Qed.
End Loop.

Lemma step_shift scale t commands st :
  step scale (t :: commands) (shift st) = shift <$> step scale commands st.
Proof.
  unfold step, mbind, Res_bind, index, shift. simpl.
  destruct (commands !! i st) as [cmd|]; simpl; [|reflexivity].
  repeat (case_match; simpl; try reflexivity).
Qed.

Lemma while_loop_shift scale t commands fuel : forall st,
  while_loop fuel scale (t :: commands) (shift st)
  = shift <$> while_loop fuel scale commands st.
Proof.
  induction fuel as [|fuel IH]; intros st; rewrite !while_loop_unfold;
    change (i (shift st) <? length (t :: commands))%nat
      with (i st <? length commands)%nat;
    destruct (i st <? length commands)%nat; try reflexivity.
  rewrite step_shift. unfold mbind, Res_bind.
  destruct (step scale commands st); simpl; auto.
Qed.

Lemma parse_d_attribute_terminates d_attr scale :
  parse_d_attribute d_attr scale <> OutOfFuel.
Proof.
  unfold parse_d_attribute, interpret, mbind, Res_bind.
  pose proof (while_loop_terminates scale (tokenize d_attr)
                (length (tokenize d_attr)) initial) as H.
  destruct (while_loop _ _ _ _); try discriminate.
  intros _. apply H; [simpl; lia | reflexivity].
Qed.

Lemma recognised_false tok :
  tok ∉ ["M"; "L"; "H"; "V"; "Z"] -> recognised tok = false.
Proof.
  intros Hn. unfold recognised. rewrite !orb_false_iff, !String.eqb_neq.
  repeat split; intros ->; apply Hn; set_solver.
Qed.

(** C4: on ["M 1 1 L 2 2 H 5 V 9 Z"] with scale 1 the interpreter returns
    the five points (1,1), (2,2), (5,2), (5,9), (1,1), the last one equal to
    the first: [M] and [L] set both coordinates, [H] only x, [V] only y, and
    [Z] emits the first point again. *)
Theorem parse_d_attribute_example :
  let f := Float.of_Z in
  let pts := [(f 1, f 1); (f 2, f 2); (f 5, f 2); (f 5, f 9); (f 1, f 1)] in
  parse_d_attribute "M 1 1 L 2 2 H 5 V 9 Z" (f 1) = Ok pts
  /\ last pts = head pts.
Proof. split; vm_compute; reflexivity. Qed.

(** C8: on the empty string the interpreter returns the empty list of
    points, whatever the scale. *)
Theorem parse_d_attribute_empty scale :
  parse_d_attribute "" scale = Ok [].
Proof. reflexivity. Qed.

(** C9: a token in command position that is none of [M], [L], [H], [V], [Z]
    emits no point and moves the position by one; the loop goes on from
    there, so a path that starts with such a token is read as the path
    without it.  Lowercase letters and [C], [S], [Q], [T], [A] are such
    tokens. *)
Theorem unrecognised_token_skipped scale commands st tok :
  commands !! i st = Some tok ->
  tok ∉ ["M"; "L"; "H"; "V"; "Z"] ->
  step scale commands st = Ok (advance st)
  /\ points (advance st) = points st
  /\ i (advance st) = (i st + 1)%nat
  /\ (forall fuel,
        while_loop (S fuel) scale commands st
        = while_loop fuel scale commands (advance st))
  /\ (forall rest, interpret scale (tok :: rest) = interpret scale rest)
  /\ Forall (fun t => t ∉ ["M"; "L"; "H"; "V"; "Z"])
       ["m"; "l"; "h"; "v"; "z"; "C"; "S"; "Q"; "T"; "A"; "c"; "s"; "q"; "t"; "a"].
Proof.
  intros Hi Hn. pose proof (recognised_false _ Hn) as Hr.
  pose proof (step_unrecognised scale commands st tok Hi Hr) as Hs.
  repeat split; try assumption.
  - intros fuel. rewrite while_loop_unfold.
    apply lookup_lt_Some in Hi.
    destruct (Nat.ltb_spec (i st) (length commands)); [|lia].
    unfold mbind, Res_bind. rewrite Hs. reflexivity.
  - intros rest. unfold interpret. simpl length.
    rewrite while_loop_unfold. simpl.
    rewrite (step_unrecognised scale (tok :: rest) initial tok eq_refl Hr).
    unfold mbind at 2. unfold Res_bind at 2.
    change (advance initial) with (shift initial).
    rewrite while_loop_shift. unfold mbind, Res_bind.
    destruct (while_loop _ _ rest initial); reflexivity.
  - apply (bool_decide_unpack _). vm_compute. exact I.
Qed.

Lemma unrecognised_token_skipped_witness :
  ["C"; "M"; "1"; "2"] !! i initial = Some "C"
  /\ ("C" ∉ ["M"; "L"; "H"; "V"; "Z"])
  /\ step default_scale ["C"; "M"; "1"; "2"] initial = Ok (advance initial)
  /\ interpret default_scale ["C"; "M"; "1"; "2"]
     = interpret default_scale ["M"; "1"; "2"].
Proof.
  assert (H1 : ["C"; "M"; "1"; "2"] !! i initial = Some "C") by reflexivity.
  assert (H2 : "C" ∉ ["M"; "L"; "H"; "V"; "Z"])
    by (apply (bool_decide_unpack _); vm_compute; exact I).
  pose proof (unrecognised_token_skipped default_scale _ initial "C" H1 H2)
    as (Hs & _ & _ & _ & Hrest & _).
  exact (conj H1 (conj H2 (conj Hs (Hrest _)))).
Defined.

Lemma reaches_skipped scale pre rest k :
  Forall (fun t => t ∉ ["M"; "L"; "H"; "V"; "Z"]) pre ->
  (k <= length pre)%nat ->
  reaches scale (pre ++ rest) (mkInterp k (Float.zero, Float.zero) []).
Proof.
  intros Hpre. induction k as [|k IH]; intros Hk; [constructor|].
  destruct (lookup_lt_is_Some_2 pre k ltac:(lia)) as [tok Htok].
  eapply (reaches_step _ _ (mkInterp k (Float.zero, Float.zero) [])).
  - apply IH. lia.
  - simpl. rewrite length_app. lia.
  - rewrite (step_unrecognised _ _ _ tok).
    + unfold advance. simpl. f_equal. f_equal. lia.
    + simpl. rewrite lookup_app_l by lia. exact Htok.
    + apply recognised_false.
      rewrite Forall_forall in Hpre. apply Hpre.
      eapply list_elem_of_lookup_2; eauto.
Qed.

(** C5: a [Z] processed while no point has been emitted makes the
    interpreter raise [IndexError] instead of returning; this is the case
    when [Z] is the first token, and when only unrecognised tokens come
    before it. *)
Theorem close_before_any_point_raises d_attr scale :
  (forall st,
      reaches scale (tokenize d_attr) st ->
      tokenize d_attr !! i st = Some "Z" -> points st = [] ->
      parse_d_attribute d_attr scale = Raise IndexError)
  /\ (forall rest,
        tokenize d_attr = "Z" :: rest ->
        parse_d_attribute d_attr scale = Raise IndexError)
  /\ (forall pre rest,
        tokenize d_attr = (pre ++ "Z" :: rest)%list ->
        Forall (fun t => t ∉ ["M"; "L"; "H"; "V"; "Z"]) pre ->
        parse_d_attribute d_attr scale = Raise IndexError).
Proof.
  assert (Hreach : forall st,
      reaches scale (tokenize d_attr) st ->
      tokenize d_attr !! i st = Some "Z" -> points st = [] ->
      parse_d_attribute d_attr scale = Raise IndexError).
  { intros st Hr Hz Hp. unfold parse_d_attribute.
    apply (reaches_raise _ _ st); [exact Hr | eapply lookup_lt_Some; eauto |].
    apply step_Z_empty; assumption. }
  assert (Hpre : forall pre rest,
      tokenize d_attr = (pre ++ "Z" :: rest)%list ->
      Forall (fun t => t ∉ ["M"; "L"; "H"; "V"; "Z"]) pre ->
      parse_d_attribute d_attr scale = Raise IndexError).
  { intros pre rest Htok Hpre.
    apply (Hreach (mkInterp (length pre) (Float.zero, Float.zero) [])).
    - rewrite Htok. apply reaches_skipped; [exact Hpre | lia].
    - rewrite Htok. simpl. rewrite lookup_app_r by lia.
      rewrite Nat.sub_diag. reflexivity.
    - reflexivity. }
  repeat split; [exact Hreach | | exact Hpre].
  intros rest Htok. apply (Hpre [] rest Htok). constructor.
Qed.

Lemma close_before_any_point_raises_witness :
  tokenize "x Z M 1 2" = (["x"] ++ "Z" :: ["M"; "1"; "2"])%list
  /\ Forall (fun t => t ∉ ["M"; "L"; "H"; "V"; "Z"]) ["x"]
  /\ parse_d_attribute "x Z M 1 2" default_scale = Raise IndexError.
Proof.
  assert (H1 : tokenize "x Z M 1 2" = (["x"] ++ "Z" :: ["M"; "1"; "2"])%list)
    by reflexivity.
  assert (H2 : Forall (fun t => t ∉ ["M"; "L"; "H"; "V"; "Z"]) ["x"])
    by (apply (bool_decide_unpack _); vm_compute; exact I).
  exact (conj H1 (conj H2
    (proj2 (proj2 (close_before_any_point_raises "x Z M 1 2" default_scale))
       ["x"] ["M"; "1"; "2"] H1 H2))).
Defined.

Lemma step_bad_coordinate scale commands st cmd j tok :
  commands !! i st = Some cmd ->
  (1 <= j <= coordinates cmd)%nat ->
  commands !! (i st + j)%nat = Some tok ->
  Float.of_string tok = Raise ValueError ->
  step scale commands st = Raise ValueError.
Proof.
  intros Hcmd Hj Htok Hbad. unfold step, index, mbind, Res_bind.
  rewrite Hcmd. unfold coordinates in Hj.
  destruct (String.eqb cmd "M" || String.eqb cmd "L") eqn:HML.
  - assert (j = 1 \/ j = 2)%nat as [-> | ->] by lia.
    + rewrite Htok, Hbad. reflexivity.
    + destruct (lookup_lt_is_Some_2 commands (i st + 1)%nat) as [a Ha].
      { apply lookup_lt_Some in Htok. lia. }
      rewrite Ha. destruct (of_string_cases a) as [[x ->]| ->]; [|reflexivity].
      rewrite Htok, Hbad. reflexivity.
  - destruct (String.eqb cmd "H" || String.eqb cmd "V") eqn:HHV; [|lia].
    assert (j = 1)%nat as -> by lia.
    destruct (String.eqb cmd "H"); [rewrite Htok, Hbad; reflexivity|].
    simpl in HHV. rewrite HHV, Htok, Hbad. reflexivity.
Qed.

(** C10: the interpreter is partial.  It raises [IndexError] or
    [ValueError], and returns no list, as soon as the tokens hold an [M] or
    [L] followed by fewer than two tokens, or end with [H] or [V], or a
    token read as a coordinate is not a float literal. *)
Theorem parse_d_attribute_not_total d_attr scale :
  let commands := tokenize d_attr in
  (exists k tok, commands !! k = Some tok /\ (tok = "M" \/ tok = "L")
                 /\ (length commands < k + 3)%nat)
  \/ (exists k tok, commands !! k = Some tok /\ (tok = "H" \/ tok = "V")
                    /\ length commands = (k + 1)%nat)
  \/ (exists st cmd j tok,
        reaches scale commands st /\ commands !! i st = Some cmd
        /\ (1 <= j <= coordinates cmd)%nat
        /\ commands !! (i st + j)%nat = Some tok
        /\ Float.of_string tok = Raise ValueError) ->
  parse_d_attribute d_attr scale = Raise IndexError
  \/ parse_d_attribute d_attr scale = Raise ValueError.
Proof.
  intros commands H.
  assert (Htr : (exists k, truncated commands k) ->
                parse_d_attribute d_attr scale = Raise IndexError
                \/ parse_d_attribute d_attr scale = Raise ValueError).
  { intros [k Hk]. unfold parse_d_attribute, interpret. fold commands.
    destruct (while_loop_truncated scale commands (length commands) initial)
      as [-> | ->]; [simpl; lia | exists k; split; [simpl; lia | exact Hk] | | ];
      auto. }
  destruct H as [(k & tok & Hl & Hc & Hlen)|[(k & tok & Hl & Hc & Hlen)|
                 (st & cmd & j & tok & Hr & Hcmd & Hj & Htok & Hbad)]].
  - apply Htr. exists k, tok. auto.
  - apply Htr. exists k, tok. auto.
  - right. unfold parse_d_attribute.
    apply (reaches_raise _ _ st _ Hr); [eapply lookup_lt_Some; eauto|].
    exact (step_bad_coordinate _ _ _ _ _ _ Hcmd Hj Htok Hbad).
Qed.

Lemma parse_d_attribute_not_total_witness :
  (tokenize "M 1 1 L 2" !! 3%nat = Some "L"
   /\ (length (tokenize "M 1 1 L 2") < 3 + 3)%nat)
  /\ (parse_d_attribute "M 1 1 L 2" default_scale = Raise IndexError
      \/ parse_d_attribute "M 1 1 L 2" default_scale = Raise ValueError).
Proof.
  assert (H1 : tokenize "M 1 1 L 2" !! 3%nat = Some "L") by reflexivity.
  assert (H2 : (length (tokenize "M 1 1 L 2") < 3 + 3)%nat) by (vm_compute; lia).
  split; [exact (conj H1 H2)|].
  apply (parse_d_attribute_not_total "M 1 1 L 2" default_scale).
  left. exists 3%nat, "L". exact (conj H1 (conj (or_intror eq_refl) H2)).
Defined.


(** * Properties of the string operations *)


Lemma split_go_nonempty sep : forall s skip, Str.split_go sep skip s <> [].
Proof.
  induction s as [|c s IH]; intros skip; simpl; [discriminate|].
  destruct skip; [|apply IH].
  destruct (Str.startswith sep (String c s)); [discriminate|].
  specialize (IH O). destruct (Str.split_go sep 0 s); [contradiction|discriminate].
Qed.




(** A split always has a last piece, so [split('}')[-1]] never fails. *)
Lemma index_last_split t :
  index_last (Str.split "}" t) = Ok (local_name t).
Proof.
  unfold index_last, local_name.
  destruct (last (Str.split "}" t)) eqn:Hl; [reflexivity|].
  apply last_None in Hl. exfalso. exact (split_go_nonempty _ _ _ Hl).
Qed.

(** Whatever comes before it, a last [}] leaves [path] as the local name. *)
Lemma split_brace_path : forall p,
  exists l, l <> [] /\ Str.split "}" (p +:+ "}path") = (l ++ ["path"])%list.
Proof.
  unfold Str.split. induction p as [|a p (l & Hne & IH)].
  - exists [""]. split; [discriminate|reflexivity].
  - change (String a p +:+ "}path") with (String a (p +:+ "}path")).
    cbn [Str.split_go String.length Nat.pred]. rewrite IH.
    destruct (Str.startswith "}" (String a (p +:+ "}path"))).
    + exists ("" :: l). split; [discriminate|reflexivity].
    + destruct l as [|x l]; [contradiction|].
      exists (String a x :: l). split; [discriminate|reflexivity].
Qed.

Lemma local_name_qualified p : local_name (p +:+ "}path") = "path".
Proof.
  unfold local_name. destruct (split_brace_path p) as (l & _ & ->).
  rewrite last_snoc. reflexivity.
Qed.

(** * Properties of the float operations *)

(** [float] on a few strings: the double nearest to 0.1, halfway cases, the
    ends of the range, and what is not a literal. *)
Example of_string_examples :
  Float.of_string "0.1" = Ok (S754_finite false 7205759403792794 (-56))
  /\ Float.of_string " 2px" = Raise ValueError
  /\ Float.of_string " 2 " = Ok (Float.of_Z 2)
  /\ Float.of_string "9007199254740993" = Ok (Float.of_Z 9007199254740992)
  /\ Float.of_string "1.7976931348623157e308"
     = Ok (S754_finite false 9007199254740991 971)
  /\ Float.of_string "1e309" = Ok (Float.inf false)
  /\ Float.of_string "-1e-400" = Ok (S754_zero true)
  /\ Float.of_string "4.9e-324" = Ok (S754_finite false 1 (-1074))
  /\ Float.of_string "-Infinity" = Ok (Float.inf true)
  /\ Float.of_string "nan" = Ok Float.nan
  /\ Float.of_string "1_000.5" = Float.of_string "1000.5"
  /\ Float.of_string "1e" = Raise ValueError
  /\ Float.of_string "" = Raise ValueError.
Proof. repeat split; vm_compute; reflexivity. Qed.

Example half_is_one_half :
  half = Float.div (Float.of_Z 1) (Float.of_Z 2) /\ Float.of_string "0.5" = Ok half.
Proof. split; vm_compute; reflexivity. Qed.

Lemma of_string_not_fuel s : Float.of_string s <> OutOfFuel.
Proof. destruct (of_string_cases s) as [[x ->]| ->]; discriminate. Qed.

Lemma pow2_cases x :
  (exists y, Float.pow2 x = Ok y) \/ Float.pow2 x = Raise OverflowError.
Proof. unfold Float.pow2. repeat case_match; eauto. Qed.

Lemma math_sqrt_cases x :
  (exists y, Float.math_sqrt x = Ok y) \/ Float.math_sqrt x = Raise ValueError.
Proof. unfold Float.math_sqrt. case_match; eauto. Qed.

Lemma calculate_distance_not_fuel x1 y1 x2 y2 :
  calculate_distance x1 y1 x2 y2 <> OutOfFuel.
Proof.
  unfold calculate_distance, mbind, Res_bind.
  destruct (pow2_cases (Float.sub x2 x1)) as [[a ->]| ->]; [|discriminate].
  destruct (pow2_cases (Float.sub y2 y1)) as [[b ->]| ->]; [|discriminate].
  destruct (math_sqrt_cases (Float.add a b)) as [[c ->]| ->]; discriminate.
Qed.

Lemma SFcompare_swap x y :
  SFcompare y x = CompOpp <$> SFcompare x y.
Proof.
  destruct x as [sx|sx| |sx mx ex], y as [sy|sy| |sy my ey]; simpl;
    try reflexivity;
    try (destruct sx; reflexivity); try (destruct sy; reflexivity);
    try (destruct sx, sy; reflexivity).
  destruct sx, sy; simpl; try reflexivity;
    rewrite (Z.compare_antisym ex ey);
    destruct (ex ?= ey); simpl; try reflexivity;
    rewrite (Pos.compare_cont_antisym mx my Eq); simpl;
    destruct (Pos.compare_cont Eq mx my); reflexivity.
Qed.

(** [w <= x] excludes [w > x]. *)
Lemma leb_not_gt w x : Float.leb w x = true -> Float.ltb x w = false.
Proof.
  unfold Float.leb, Float.ltb, SFleb, SFltb. rewrite (SFcompare_swap w x).
  destruct (SFcompare w x) as [[]|]; simpl; congruence.
Qed.

(** * Properties of the wall filter *)

(** The length probe on the two paths of the specification: 20 and 5. *)
Example first_segment_length_20 :
  first_segment_length (tokenize "M 0 0 L 20 0") = Ok (Float.of_Z 20)
  /\ Float.leb default_min_segment_length (Float.of_Z 20) = true.
Proof. split; vm_compute; reflexivity. Qed.

Example first_segment_length_5 :
  first_segment_length (tokenize "M 0 0 L 5 0") = Ok (Float.of_Z 5)
  /\ Float.leb default_min_segment_length (Float.of_Z 5) = false.
Proof. split; vm_compute; reflexivity. Qed.

Lemma bind_Ok {A B} (a : A) (f : A -> Res B) : (Ok a ≫= f) = f a.
Proof. reflexivity. Qed.

Lemma stroke_width_not_fuel style_attr : stroke_width style_attr <> OutOfFuel.
Proof.
  unfold stroke_width, catch, index, mbind, Res_bind.
  repeat case_match; try discriminate; simplify_eq;
    match goal with
    | H : Float.of_string ?a = _ |- _ =>
        destruct (of_string_cases a) as [[? ?]| ?]; congruence
    end.
Qed.

Lemma first_segment_length_not_fuel commands :
  first_segment_length commands <> OutOfFuel.
Proof.
  unfold first_segment_length, index, mbind, Res_bind.
  repeat case_match; try discriminate;
    try apply calculate_distance_not_fuel;
    match goal with
    | H : Float.of_string ?a = OutOfFuel |- _ =>
        destruct (of_string_not_fuel _ H)
    end.
Qed.

Lemma first_segment_length_tokens commands len :
  first_segment_length commands = Ok len -> (6 <= length commands)%nat.
Proof.
  unfold first_segment_length, index, mbind, Res_bind.
  destruct (commands !! 1%nat); [|discriminate].
  destruct (Float.of_string _); try discriminate.
  destruct (commands !! 2%nat); [|discriminate].
  destruct (Float.of_string _); try discriminate.
  destruct (commands !! 4%nat); [|discriminate].
  destruct (Float.of_string _); try discriminate.
  destruct (commands !! 5%nat) eqn:H5; [|discriminate].
  intros _. apply lookup_lt_Some in H5. lia.
Qed.

Lemma segment_long_enough_spec min_segment_length commands :
  segment_long_enough min_segment_length commands
  = (len ← first_segment_length commands; Ok (Float.leb min_segment_length len)).
Proof.
  unfold segment_long_enough, first_segment_length, mbind, Res_bind.
  res_cases; reflexivity.
Qed.

(** What the body of the loop does with one element. *)
Lemma visit_spec min_segment_length element wall_paths :
  visit min_segment_length element wall_paths =
    match faults min_segment_length element with
    | Some e => Raise e
    | None =>
        Ok (if is_wall min_segment_length element
            then (wall_paths ++ [to_record element])%list
            else wall_paths)
    end.
Proof.
  unfold faults, visit, is_wall. rewrite index_last_split, !bind_Ok.
  fold (style_attr_of element) (d_attr_of element) (path_id_of element).
  destruct (String.eqb (local_name (tag element)) "path"); [|reflexivity].
  pose proof (stroke_width_not_fuel (style_attr_of element)) as Hnf.
  destruct (stroke_width (style_attr_of element)) as [w|e|];
    [|reflexivity|contradiction].
  rewrite !bind_Ok.
  destruct (Float.ltb half w); [|reflexivity].
  rewrite !segment_long_enough_spec.
  pose proof (first_segment_length_not_fuel (tokenize (d_attr_of element))) as Hnf'.
  pose proof (first_segment_length_tokens (tokenize (d_attr_of element))) as Hlen.
  destruct (first_segment_length (tokenize (d_attr_of element))) as [len|e|];
    [| |contradiction].
  - specialize (Hlen len eq_refl).
    destruct (Nat.leb_spec 4 (length (tokenize (d_attr_of element)))); [|lia].
    rewrite !bind_Ok.
    destruct (Float.leb min_segment_length len); reflexivity.
  - destruct (4 <=? length (tokenize (d_attr_of element)))%nat; [|reflexivity].
    destruct e; reflexivity.
Qed.

Lemma for_each_spec min_segment_length : forall elements wall_paths,
  match for_each min_segment_length elements wall_paths with
  | Ok out =>
      out = (wall_paths
             ++ (to_record <$> List.filter (is_wall min_segment_length) elements))%list
      /\ Forall (fun e => faults min_segment_length e = None) elements
  | Raise e => Exists (fun el => faults min_segment_length el = Some e) elements
  | OutOfFuel => False
  end.
Proof.
  induction elements as [|el rest IH]; intros wall_paths; simpl.
  - rewrite app_nil_r. auto.
  - rewrite visit_spec. destruct (faults min_segment_length el) eqn:Hf; simpl.
    + left. exact Hf.
    + specialize (IH (if is_wall min_segment_length el
                      then (wall_paths ++ [to_record el])%list else wall_paths)).
      destruct (for_each _ rest _) as [out|e|]; [| right; exact IH | exact IH].
      destruct IH as [-> Hall]. split; [|constructor; assumption].
      destruct (is_wall min_segment_length el); simpl;
        [rewrite <- app_assoc|]; reflexivity.
Qed.

Lemma for_each_ok min_segment_length elements :
  Forall (fun e => faults min_segment_length e = None) elements ->
  for_each min_segment_length elements []
  = Ok (to_record <$> List.filter (is_wall min_segment_length) elements).
Proof.
  intros Hall. pose proof (for_each_spec min_segment_length elements []) as H.
  destruct (for_each _ _ _) as [out|e|]; [| |contradiction].
  - destruct H as [-> _]. reflexivity.
  - exfalso. rewrite Exists_exists in H. destruct H as (el & Hin & Hf).
    rewrite Forall_forall in Hall. rewrite (Hall el Hin) in Hf. discriminate.
Qed.

Lemma is_wall_iff min_segment_length element :
  is_wall min_segment_length element = true <->
    local_name (tag element) = "path"
    /\ (exists w, stroke_width (style_attr_of element) = Ok w
                  /\ Float.ltb half w = true)
    /\ (exists len, first_segment_length (tokenize (d_attr_of element)) = Ok len
                    /\ Float.leb min_segment_length len = true).
Proof.
  unfold is_wall. rewrite !andb_true_iff, String.eqb_eq. split.
  - intros [[Ht Hw] Hl]. split; [exact Ht|]. split.
    + destruct (stroke_width _) as [w| |]; try discriminate. eauto.
    + destruct (first_segment_length _) as [len| |]; try discriminate. eauto.
  - intros (Ht & (w & -> & Hw) & (len & -> & Hl)). auto.
Qed.

(** What the filter returns: when [parse_svg_for_walls] returns, the list it
    returns holds, in document order, the record of exactly those elements that are a path by
    their local name, have a stroke width above 0.5 and a first segment (from
    tokens 1, 2 to tokens 4, 5) at least [min_segment_length] long; it
    returns whenever no element raises, and otherwise raises what the first
    such element raises.  An element whose stroke width is at most 0.5 is not
    a wall, whatever its segment. *)
Theorem wall_filter_iff root min_segment_length :
  match parse_svg_for_walls (Parsed root) min_segment_length with
  | Ok (_, wall_paths) =>
      wall_paths
      = to_record <$> List.filter (is_wall min_segment_length) (iter root)
      /\ Forall (fun e => faults min_segment_length e = None) (iter root)
  | Raise e =>
      Exists (fun el => faults min_segment_length el = Some e) (iter root)
  | OutOfFuel => False
  end
  /\ (Forall (fun e => faults min_segment_length e = None) (iter root) ->
      exists lines,
        parse_svg_for_walls (Parsed root) min_segment_length
        = Ok (lines,
              to_record <$> List.filter (is_wall min_segment_length) (iter root)))
  /\ (forall element,
        is_wall min_segment_length element = true <->
          local_name (tag element) = "path"
          /\ (exists w, stroke_width (style_attr_of element) = Ok w
                        /\ Float.ltb half w = true)
          /\ (exists len,
                first_segment_length (tokenize (d_attr_of element)) = Ok len
                /\ Float.leb min_segment_length len = true))
  /\ (forall element w,
        stroke_width (style_attr_of element) = Ok w ->
        Float.leb w half = true ->
        is_wall min_segment_length element = false).
Proof.
  split; [|split; [|split]].
  - unfold parse_svg_for_walls.
    pose proof (for_each_spec min_segment_length (iter root) []) as H.
    destruct (for_each _ _ _) as [out|e|]; simpl; exact H.
  - intros Hall. unfold parse_svg_for_walls.
    rewrite (for_each_ok _ _ Hall), bind_Ok. eauto.
  - intros element. apply is_wall_iff.
  - intros element w Hw Hle. unfold is_wall. rewrite Hw, (leb_not_gt _ _ Hle).
    rewrite andb_false_r. reflexivity.
Qed.

Lemma wall_filter_iff_witness :
  Forall (fun e => faults default_min_segment_length e = None) (iter floor_plan)
  /\ exists lines,
       parse_svg_for_walls (Parsed floor_plan) default_min_segment_length
       = Ok (lines,
             [ mkPathRecord "p1" "M 0 0 L 20 0" "fill:none;stroke-width:2px;";
               mkPathRecord "N/A" "M 0,0 L 0,10 Z" "stroke-width:0.50001px" ]).
Proof.
  assert (H : Forall (fun e => faults default_min_segment_length e = None)
                (iter floor_plan))
    by (repeat constructor).
  split; [exact H|].
  exact (proj1 (proj2 (wall_filter_iff floor_plan default_min_segment_length)) H).
Defined.

(** C1: an element that meets the three conditions is not always in the
    output.  In the document below the first path is a wall by its tag, its
    stroke width and its first segment; the second path has a style with
    [stroke-width] but no [stroke-width:], and the [IndexError] of line 44
    that it raises leaves [parse_svg_for_walls] without any output. *)
Theorem wall_lost_to_later_exception :
  let wall :=
    mkElement "path"
      {[ "id" := "w"; "d" := "M 0 0 L 20 0"; "style" := "stroke-width:2px" ]} [] in
  let other :=
    mkElement "path"
      {[ "d" := "M 0 0 L 20 0"; "style" := "stroke-width :2px" ]} [] in
  let document := mkElement "svg" ∅ [wall; other] in
  is_wall default_min_segment_length wall = true
  /\ local_name (tag wall) = "path"
  /\ stroke_width (style_attr_of wall) = Ok (Float.of_Z 2)
  /\ first_segment_length (tokenize (d_attr_of wall)) = Ok (Float.of_Z 20)
  /\ visit default_min_segment_length wall [] = Ok [to_record wall]
  /\ parse_svg_for_walls (Parsed document) default_min_segment_length
     = Raise IndexError.
Proof. repeat split; vm_compute; reflexivity. Qed.

(** C2: the element [<path style="stroke-width :2px" d="M 0 0 L 20 0"/>]
    has a malformed stroke-width declaration, and [parse_svg_for_walls] lets
    the [IndexError] of line 44 out instead of leaving the element aside;
    likewise the [OverflowError] of the squares of line 9. *)
Theorem malformed_style_raises :
  parse_svg_for_walls
    (Parsed (mkElement "svg" ∅
               [mkElement "path"
                  {[ "style" := "stroke-width :2px"; "d" := "M 0 0 L 20 0" ]} []]))
    default_min_segment_length
  = Raise IndexError
  /\ parse_svg_for_walls
       (Parsed (mkElement "path"
                  {[ "style" := "stroke-width:2px"; "d" := "M 1e200 0 L 0 0" ]} []))
       default_min_segment_length
     = Raise OverflowError.
Proof. split; vm_compute; reflexivity. Qed.

(** C6: when the document does not parse, [parse_svg_for_walls] prints the
    error and returns the empty list. *)
Theorem parse_error_reported e min_segment_length :
  parse_svg_for_walls (ParseError e) min_segment_length
  = Ok ([Error_parsing_SVG_file e], []).
Proof. reflexivity. Qed.

(** C7: only the local name of the tag counts: two elements with the same
    local name and attributes are treated alike, and a tag made of any
    namespace prefix in braces and [path] has the local name [path], so that
    its element is treated as one tagged [path]. *)
Theorem namespace_ignored min_segment_length attrs kids wall_paths :
  (forall t1 t2 kids',
      local_name t1 = local_name t2 ->
      visit min_segment_length (mkElement t1 attrs kids) wall_paths
      = visit min_segment_length (mkElement t2 attrs kids') wall_paths)
  /\ (forall ns, local_name ("{" +:+ ns +:+ "}path") = "path")
  /\ local_name "path" = "path"
  /\ (forall ns,
        visit min_segment_length (mkElement ("{" +:+ ns +:+ "}path") attrs kids)
          wall_paths
        = visit min_segment_length (mkElement "path" attrs kids) wall_paths)
  /\ (forall ns,
        is_wall min_segment_length (mkElement ("{" +:+ ns +:+ "}path") attrs kids)
        = is_wall min_segment_length (mkElement "path" attrs kids)).
Proof.
  assert (Hq : forall ns, local_name ("{" +:+ ns +:+ "}path") = "path")
    by (intros ns; apply (local_name_qualified (String "{" ns))).
  assert (Hv : forall t1 t2 kids',
      local_name t1 = local_name t2 ->
      visit min_segment_length (mkElement t1 attrs kids) wall_paths
      = visit min_segment_length (mkElement t2 attrs kids') wall_paths).
  { intros t1 t2 kids' Heq. unfold visit. simpl tag. simpl attrib.
    rewrite !index_last_split, Heq. reflexivity. }
  split; [exact Hv|]. split; [exact Hq|]. split; [reflexivity|]. split.
  - intros ns. apply Hv. rewrite Hq. reflexivity.
  - intros ns. unfold is_wall. simpl tag. rewrite Hq. reflexivity.
Qed.

Lemma namespace_ignored_witness :
  local_name "{http://www.w3.org/2000/svg}path" = local_name "path"
  /\ visit default_min_segment_length
       (mkElement "{http://www.w3.org/2000/svg}path"
          {[ "d" := "M 0 0 L 20 0"; "style" := "stroke-width:2px" ]} []) []
     = visit default_min_segment_length
         (mkElement "path"
            {[ "d" := "M 0 0 L 20 0"; "style" := "stroke-width:2px" ]} []) [].
Proof.
  assert (H : local_name "{http://www.w3.org/2000/svg}path" = local_name "path")
    by reflexivity.
  split; [exact H|].
  exact (proj1 (namespace_ignored default_min_segment_length _ [] [])
           "{http://www.w3.org/2000/svg}path" "path" [] H).
Defined.

Lemma stroke_width_zero_skipped min_segment_length element wall_paths :
  stroke_width (style_attr_of element) = Ok Float.zero ->
  visit min_segment_length element wall_paths = Ok wall_paths.
Proof.
  intros Hw. rewrite visit_spec. unfold faults, visit, is_wall.
  rewrite index_last_split, bind_Ok.
  fold (style_attr_of element). rewrite Hw, bind_Ok.
  change (Float.ltb half Float.zero) with false.
  rewrite andb_false_r. destruct (String.eqb _ _); reflexivity.
Qed.





(** * The interpreter as a scan of the remaining tokens *)

Lemma lookup_after {A} (pre : list A) (toks : list A) (k : nat) :
  (pre ++ toks)%list !! (length pre + k)%nat = toks !! k.
Proof.
  rewrite lookup_app_r by lia. f_equal. lia.
Qed.

Lemma while_loop_run scale fuel : forall pre toks cp pts,
  (length toks <= fuel)%nat ->
  while_loop fuel scale (pre ++ toks)%list (mkInterp (length pre) cp pts)
  = (fun r : point * list point =>
       mkInterp (length (pre ++ toks)%list) (fst r) (snd r))
    <$> run scale toks cp pts.
Proof.
  induction fuel as [|fuel IH]; intros pre toks cp pts Hf;
    rewrite while_loop_unfold; cbn [i].
  - destruct toks; [|simpl in Hf; lia].
    rewrite app_nil_r, Nat.ltb_irrefl. reflexivity.
  - destruct toks as [|cmd rest].
    { rewrite app_nil_r, Nat.ltb_irrefl. reflexivity. }
    destruct (Nat.ltb_spec (length pre) (length (pre ++ cmd :: rest)%list))
      as [_|Hge]; [|rewrite length_app in Hge; simpl in Hge; lia].
    unfold step, index. cbn [i points current_point].
    pose proof (lookup_after pre (cmd :: rest) 0) as H0.
    pose proof (lookup_after pre (cmd :: rest) 1) as H1.
    pose proof (lookup_after pre (cmd :: rest) 2) as H2.
    rewrite Nat.add_0_r in H0. rewrite H0, H1, H2. cbn [lookup list_lookup].
    rewrite bind_Ok. cbn [run].
    simpl in Hf.
    destruct (String.eqb cmd "M" || String.eqb cmd "L").
    { destruct rest as [|a rest1]; [reflexivity|]. cbn [lookup list_lookup].
      rewrite bind_Ok.
      destruct (Float.of_string a) as [x| |]; try reflexivity. rewrite bind_Ok.
      destruct rest1 as [|b rest2]; [reflexivity|]. cbn [lookup list_lookup].
      rewrite bind_Ok.
      destruct (Float.of_string b) as [y| |]; try reflexivity. rewrite !bind_Ok.
      replace (length pre + 3)%nat with (length (pre ++ [cmd; a; b])%list)
        by (rewrite length_app; reflexivity).
      replace (pre ++ cmd :: a :: b :: rest2)%list
        with ((pre ++ [cmd; a; b]) ++ rest2)%list
        by (rewrite <- app_assoc; reflexivity).
      apply IH. simpl in Hf. lia. }
    destruct (String.eqb cmd "H").
    { destruct rest as [|a rest1]; [reflexivity|]. cbn [lookup list_lookup].
      rewrite bind_Ok.
      destruct (Float.of_string a) as [x| |]; try reflexivity. rewrite !bind_Ok.
      replace (length pre + 2)%nat with (length (pre ++ [cmd; a])%list)
        by (rewrite length_app; reflexivity).
      replace (pre ++ cmd :: a :: rest1)%list
        with ((pre ++ [cmd; a]) ++ rest1)%list
        by (rewrite <- app_assoc; reflexivity).
      apply IH. simpl in Hf. lia. }
    destruct (String.eqb cmd "V").
    { destruct rest as [|a rest1]; [reflexivity|]. cbn [lookup list_lookup].
      rewrite bind_Ok.
      destruct (Float.of_string a) as [x| |]; try reflexivity. rewrite !bind_Ok.
      replace (length pre + 2)%nat with (length (pre ++ [cmd; a])%list)
        by (rewrite length_app; reflexivity).
      replace (pre ++ cmd :: a :: rest1)%list
        with ((pre ++ [cmd; a]) ++ rest1)%list
        by (rewrite <- app_assoc; reflexivity).
      apply IH. simpl in Hf. lia. }
    destruct (String.eqb cmd "Z").
    { destruct pts as [|first pts']; [reflexivity|]. cbn [lookup list_lookup].
      rewrite !bind_Ok.
      replace (length pre + 1)%nat with (length (pre ++ [cmd])%list)
        by (rewrite length_app; reflexivity).
      replace (pre ++ cmd :: rest)%list with ((pre ++ [cmd]) ++ rest)%list
        by (rewrite <- app_assoc; reflexivity).
      apply IH. lia. }
    rewrite !bind_Ok.
    replace (length pre + 1)%nat with (length (pre ++ [cmd])%list)
      by (rewrite length_app; reflexivity).
    replace (pre ++ cmd :: rest)%list with ((pre ++ [cmd]) ++ rest)%list
      by (rewrite <- app_assoc; reflexivity).
    apply IH. lia.
Qed.

Lemma interpret_run scale commands :
  interpret scale commands
  = snd <$> run scale commands (Float.zero, Float.zero) [].
Proof.
  unfold interpret, initial.
  pose proof (while_loop_run scale (length commands) [] commands
                (Float.zero, Float.zero) [] (Nat.le_refl _)) as H.
  cbn [app length] in H. rewrite H.
  destruct (run scale commands (Float.zero, Float.zero) []); reflexivity.
Qed.

Lemma is_float_not_recognised a :
  is_float a = true -> recognised a = false.
Proof.
  unfold is_float. intros H. destruct (recognised a) eqn:Hr; [|reflexivity].
  rewrite (of_string_command a Hr) in H. discriminate.
Qed.

Lemma recognised_command cmd :
  recognised cmd =
    (String.eqb cmd "M" || String.eqb cmd "L")
    || (String.eqb cmd "H" || (String.eqb cmd "V" || String.eqb cmd "Z")).
Proof.
  unfold recognised.
  destruct (String.eqb cmd "M"), (String.eqb cmd "L"), (String.eqb cmd "H"),
    (String.eqb cmd "V"), (String.eqb cmd "Z"); reflexivity.
Qed.

(** What a successful run adds: one point for each command letter. *)
Lemma run_points scale n : forall toks cp pts cp' pts',
  (length toks <= n)%nat ->
  run scale toks cp pts = Ok (cp', pts') ->
  exists more,
    pts' = (pts ++ more)%list
    /\ length more = length (List.filter recognised toks).
Proof.
  induction n as [|n IH]; intros toks cp pts cp' pts' Hn;
    (destruct toks as [|cmd rest];
     [intros [= <- <-]; exists []; rewrite app_nil_r; auto|]);
    [simpl in Hn; lia|].
  simpl in Hn. cbn [run List.filter]. rewrite recognised_command.
  assert (Hrec : forall a x rest', Float.of_string a = Ok x ->
            List.filter recognised (a :: rest') = List.filter recognised rest').
  { intros a x rest' Ha. cbn [List.filter].
    rewrite is_float_not_recognised; [reflexivity|].
    unfold is_float. rewrite Ha. reflexivity. }
  destruct (String.eqb cmd "M" || String.eqb cmd "L"); cbn [orb].
  { destruct rest as [|a [|b rest2]]; try discriminate;
      [destruct (Float.of_string a); discriminate|].
    destruct (Float.of_string a) as [x| |] eqn:Ha; try discriminate.
    destruct (Float.of_string b) as [y| |] eqn:Hb; try discriminate.
    intros Hr. apply IH in Hr as (more & -> & Hlen); [|simpl in Hn; lia].
    rewrite (Hrec a x _ Ha), (Hrec b y _ Hb).
    eexists (_ :: more). rewrite <- app_assoc. split; [reflexivity|].
    simpl. rewrite Hlen. reflexivity. }
  destruct (String.eqb cmd "H"); cbn [orb].
  { destruct rest as [|a rest1]; try discriminate.
    destruct (Float.of_string a) as [x| |] eqn:Ha; try discriminate.
    intros Hr. apply IH in Hr as (more & -> & Hlen); [|simpl in Hn; lia].
    rewrite (Hrec a x _ Ha).
    eexists (_ :: more). rewrite <- app_assoc. split; [reflexivity|].
    simpl. rewrite Hlen. reflexivity. }
  destruct (String.eqb cmd "V"); cbn [orb].
  { destruct rest as [|a rest1]; try discriminate.
    destruct (Float.of_string a) as [x| |] eqn:Ha; try discriminate.
    intros Hr. apply IH in Hr as (more & -> & Hlen); [|simpl in Hn; lia].
    rewrite (Hrec a x _ Ha).
    eexists (_ :: more). rewrite <- app_assoc. split; [reflexivity|].
    simpl. rewrite Hlen. reflexivity. }
  destruct (String.eqb cmd "Z"); cbn [orb].
  { destruct pts as [|first pts0]; try discriminate.
    intros Hr. apply IH in Hr as (more & -> & Hlen); [|lia].
    eexists (_ :: more). rewrite <- app_assoc. split; [reflexivity|].
    simpl. rewrite Hlen. reflexivity. }
  intros Hr. apply IH in Hr; [exact Hr|lia].
Qed.

(** Whether a point has been made. *)
Lemma run_well_formed scale n : forall toks cp pts,
  (length toks <= n)%nat ->
  (exists r, run scale toks cp pts = Ok r)
  <-> well_formed (match pts with [] => false | _ => true end) toks = true.
Proof.
  assert (Hsnoc : forall (pts : list point) p,
            match (pts ++ [p])%list with [] => false | _ => true end = true)
    by (intros [|? ?] ?; reflexivity).
  induction n as [|n IH]; intros toks cp pts Hn;
    (destruct toks as [|cmd rest]; [simpl; split; eauto|]);
    [simpl in Hn; lia|].
  simpl in Hn. cbn [run well_formed]. unfold is_float.
  destruct (String.eqb cmd "M" || String.eqb cmd "L").
  { destruct rest as [|a [|b rest2]];
      [split; [intros [? ?]|]; discriminate
      |destruct (Float.of_string a); split; try intros [? ?]; discriminate|].
    destruct (of_string_cases a) as [[x ->]| ->];
      [|split; [intros [? ?]|]; discriminate].
    destruct (of_string_cases b) as [[y ->]| ->];
      [|split; [intros [? ?]|]; discriminate].
    cbn [andb]. rewrite IH by (simpl in Hn; lia). rewrite Hsnoc. reflexivity. }
  destruct (String.eqb cmd "H"); cbn [orb].
  { destruct rest as [|a rest1]; [split; [intros [? ?]|]; discriminate|].
    destruct (of_string_cases a) as [[x ->]| ->];
      [|split; [intros [? ?]|]; discriminate].
    cbn [andb]. rewrite IH by (simpl in Hn; lia). rewrite Hsnoc. reflexivity. }
  destruct (String.eqb cmd "V"); cbn [orb].
  { destruct rest as [|a rest1]; [split; [intros [? ?]|]; discriminate|].
    destruct (of_string_cases a) as [[x ->]| ->];
      [|split; [intros [? ?]|]; discriminate].
    cbn [andb]. rewrite IH by (simpl in Hn; lia). rewrite Hsnoc. reflexivity. }
  destruct (String.eqb cmd "Z").
  { destruct pts as [|first pts0]; [split; [intros [? ?]|]; discriminate|].
    cbn [andb]. rewrite IH by lia. reflexivity. }
  apply IH. lia.
Qed.

(** A run over two lists of tokens, the first of which is accepted, is the
    run over the second from where the first one ends. *)
Lemma run_app scale c2 n : forall c1 cp pts cp' pts',
  (length c1 <= n)%nat ->
  run scale c1 cp pts = Ok (cp', pts') ->
  run scale (c1 ++ c2)%list cp pts = run scale c2 cp' pts'.
Proof.
  induction n as [|n IH]; intros c1 cp pts cp' pts' Hn;
    (destruct c1 as [|cmd rest]; [intros [= <- <-]; reflexivity|]);
    [simpl in Hn; lia|].
  simpl in Hn. cbn [run app].
  destruct (String.eqb cmd "M" || String.eqb cmd "L").
  { destruct rest as [|a [|b rest2]]; try discriminate;
      [destruct (Float.of_string a); discriminate|].
    cbn [app].
    destruct (Float.of_string a) as [x| |]; try discriminate.
    destruct (Float.of_string b) as [y| |]; try discriminate.
    apply IH. simpl in Hn. lia. }
  destruct (String.eqb cmd "H").
  { destruct rest as [|a rest1]; try discriminate. cbn [app].
    destruct (Float.of_string a) as [x| |]; try discriminate.
    apply IH. simpl in Hn. lia. }
  destruct (String.eqb cmd "V").
  { destruct rest as [|a rest1]; try discriminate. cbn [app].
    destruct (Float.of_string a) as [x| |]; try discriminate.
    apply IH. simpl in Hn. lia. }
  destruct (String.eqb cmd "Z").
  { destruct pts as [|first pts0]; try discriminate. apply IH. lia. }
  apply IH. lia.
Qed.

Lemma run_unrecognised scale cp pts : forall toks,
  Forall (fun t => recognised t = false) toks ->
  run scale toks cp pts = Ok (cp, pts).
Proof.
  induction 1 as [|tok rest Htok _ IH]; [reflexivity|].
  cbn [run]. rewrite recognised_command in Htok.
  rewrite !orb_false_iff in Htok. destruct Htok as [[HM HL] [HH [HV HZ]]].
  rewrite HM, HL, HH, HV, HZ. exact IH.
Qed.

Lemma parse_d_attribute_ok_iff d_attr scale :
  (exists pts, parse_d_attribute d_attr scale = Ok pts)
  <-> well_formed false (tokenize d_attr) = true.
Proof.
  unfold parse_d_attribute. rewrite interpret_run.
  rewrite <- (run_well_formed scale (length (tokenize d_attr)) (tokenize d_attr)
                (Float.zero, Float.zero) [] (Nat.le_refl _)).
  destruct (run scale (tokenize d_attr) (Float.zero, Float.zero) []) as [r| |];
    simpl; split; intros [x Hx]; try discriminate; eauto.
Qed.

(** X1: [parse_d_attribute] returns a list exactly when the tokens are
    well formed: every [M] or [L] is followed by two float literals, every
    [H] or [V] by one, and no [Z] comes before the first of these commands;
    on any other string it raises. *)
Theorem parse_d_attribute_returns_iff d_attr scale :
  (exists pts, parse_d_attribute d_attr scale = Ok pts)
  <-> well_formed false (tokenize d_attr) = true.
Proof. apply parse_d_attribute_ok_iff. Qed.

Lemma parse_d_attribute_returns_iff_witness :
  well_formed false (tokenize "M 0,0 L 0,10 H 4 Z") = true
  /\ exists pts, parse_d_attribute "M 0,0 L 0,10 H 4 Z" default_scale = Ok pts.
Proof.
  assert (H : well_formed false (tokenize "M 0,0 L 0,10 H 4 Z") = true)
    by (vm_compute; reflexivity).
  split; [exact H|].
  exact (proj2 (parse_d_attribute_returns_iff "M 0,0 L 0,10 H 4 Z" default_scale) H).
Defined.

(** X2: when [parse_d_attribute] returns, it returns one point for each
    token that is one of [M], [L], [H], [V], [Z]. *)
Theorem one_point_per_command d_attr scale pts :
  parse_d_attribute d_attr scale = Ok pts ->
  length pts = length (List.filter recognised (tokenize d_attr)).
Proof.
  unfold parse_d_attribute. rewrite interpret_run.
  destruct (run scale (tokenize d_attr) (Float.zero, Float.zero) [])
    as [[cp' pts']| |] eqn:Hr; try discriminate.
  intros [= <-].
  destruct (run_points scale _ _ _ _ _ _ (Nat.le_refl _) Hr) as (more & -> & Hlen).
  exact Hlen.
Qed.

Lemma one_point_per_command_witness :
  exists pts,
    parse_d_attribute "M 0,0 L 0,10 x H 4 Z" default_scale = Ok pts
    /\ length pts = 4%nat.
Proof.
  destruct (parse_d_attribute "M 0,0 L 0,10 x H 4 Z" default_scale)
    as [pts| |] eqn:H; try (vm_compute in H; discriminate).
  exists pts. split; [reflexivity|].
  exact (one_point_per_command "M 0,0 L 0,10 x H 4 Z" default_scale pts H).
Defined.

(** X3: tokens added after an accepted list only add points: the points of
    [c1 ++ c2] are those of [c1] followed by one point for each command
    letter of [c2], and [c1 ++ c2] is accepted exactly when [c2] is well
    formed, a [Z] in [c2] being allowed once [c1] has made a point. *)
Theorem interpret_app scale c1 c2 pts1 :
  interpret scale c1 = Ok pts1 ->
  (forall pts,
      interpret scale (c1 ++ c2)%list = Ok pts ->
      exists more,
        pts = (pts1 ++ more)%list
        /\ length more = length (List.filter recognised c2))
  /\ ((exists pts, interpret scale (c1 ++ c2)%list = Ok pts)
      <-> well_formed (match pts1 with [] => false | _ => true end) c2 = true).
Proof.
  rewrite !interpret_run.
  destruct (run scale c1 (Float.zero, Float.zero) []) as [[cp1 pts1']| |] eqn:H1;
    try discriminate.
  intros [= <-].
  rewrite (run_app scale c2 _ c1 _ _ _ _ (Nat.le_refl _) H1).
  split.
  - intros pts.
    destruct (run scale c2 cp1 pts1') as [[cp2 pts2]| |] eqn:H2; try discriminate.
    intros [= <-].
    exact (run_points scale _ _ _ _ _ _ (Nat.le_refl _) H2).
  - rewrite <- (run_well_formed scale (length c2) c2 cp1 pts1' (Nat.le_refl _)).
    destruct (run scale c2 cp1 pts1') as [r| |];
      simpl; split; intros [x Hx]; try discriminate; eauto.
Qed.

Lemma interpret_app_witness :
  interpret default_scale ["M"; "1"; "2"]
  = Ok [(Float.of_Z 100, Float.of_Z 200)]
  /\ exists pts, interpret default_scale (["M"; "1"; "2"] ++ ["Z"])%list = Ok pts.
Proof.
  assert (H : interpret default_scale ["M"; "1"; "2"]
              = Ok [(Float.of_Z 100, Float.of_Z 200)])
    by (vm_compute; reflexivity).
  split; [exact H|].
  exact (proj2 (proj2 (interpret_app default_scale _ ["Z"] _ H)) eq_refl).
Defined.

(** X4: a path data string without any of the letters [M], [L], [H], [V],
    [Z] among its tokens, such as one written with relative (lowercase)
    commands, yields no point and no exception. *)
Theorem unrecognised_only_draws_nothing d_attr scale :
  Forall (fun t => t ∉ ["M"; "L"; "H"; "V"; "Z"]) (tokenize d_attr) ->
  parse_d_attribute d_attr scale = Ok [].
Proof.
  intros H. unfold parse_d_attribute. rewrite interpret_run.
  rewrite run_unrecognised; [reflexivity|].
  eapply Forall_impl; [exact H|]. intros t. apply recognised_false.
Qed.

Lemma unrecognised_only_draws_nothing_witness :
  Forall (fun t => t ∉ ["M"; "L"; "H"; "V"; "Z"]) (tokenize "m 0 0 l 20 0 z")
  /\ parse_d_attribute "m 0 0 l 20 0 z" default_scale = Ok [].
Proof.
  assert (H : Forall (fun t => t ∉ ["M"; "L"; "H"; "V"; "Z"])
                (tokenize "m 0 0 l 20 0 z"))
    by (apply (bool_decide_unpack _); vm_compute; exact I).
  exact (conj H (unrecognised_only_draws_nothing "m 0 0 l 20 0 z" default_scale H)).
Defined.

(** X5: at every iteration of the loop of [parse_d_attribute] the position
    is within the list of tokens (or just past its end), and no more points
    have been made than tokens consumed. *)
Theorem loop_invariant scale commands st :
  reaches scale commands st ->
  (i st <= length commands)%nat /\ (length (points st) <= i st)%nat.
Proof.
  induction 1 as [|st st' _ [IHi IHp] Hlt Hs]; [simpl; lia|].
  revert Hs. unfold step, index, mbind, Res_bind.
  repeat case_match; try discriminate; intros [= <-]; simplify_eq; simpl;
    rewrite ?length_app; simpl;
    repeat match goal with
      | H : commands !! _ = Some _ |- _ => apply lookup_lt_Some in H
      end; lia.
Qed.

Lemma loop_invariant_witness :
  reaches default_scale ["M"; "1"; "2"; "Z"]
    (mkInterp 3 (Float.of_Z 100, Float.of_Z 200) [(Float.of_Z 100, Float.of_Z 200)])
  /\ (3 <= 4)%nat /\ (1 <= 3)%nat.
Proof.
  assert (H : reaches default_scale ["M"; "1"; "2"; "Z"]
    (mkInterp 3 (Float.of_Z 100, Float.of_Z 200) [(Float.of_Z 100, Float.of_Z 200)])).
  { eapply (reaches_step _ _ initial); [constructor | simpl; lia |].
    vm_compute. reflexivity. }
  exact (conj H (loop_invariant _ _ _ H)).
Defined.

(** * Properties of the distance *)

Lemma iter_pos_invariant {A} (P : A -> Prop) (f : A -> A) :
  (forall x, P x -> P (f x)) -> forall n x, P x -> P (SpecFloat.iter_pos f n x).
Proof.
  intros Hf. induction n as [n IH|n IH|]; intros x Hx; simpl; auto.
Qed.

Lemma shr_1_nonneg mrs : 0 <= shr_m mrs -> 0 <= shr_m (shr_1 mrs).
Proof.
  destruct mrs as [m r s]. destruct m as [|p|p]; [|destruct p|destruct p];
    simpl; lia.
Qed.

Lemma shr_fexp_nonneg m e l :
  0 <= m -> 0 <= shr_m (fst (shr_fexp Float.prec Float.emax m e l)).
Proof.
  intros Hm. unfold shr_fexp, shr.
  assert (H0 : 0 <= shr_m (shr_record_of_loc m l))
    by (destruct l as [|[]]; exact Hm).
  destruct (_ - e) as [|p|p]; simpl; try exact H0.
  apply (iter_pos_invariant (fun mrs => 0 <= shr_m mrs)); [|exact H0].
  apply shr_1_nonneg.
Qed.

Lemma round_nearest_even_nonneg m l : 0 <= m -> 0 <= round_nearest_even m l.
Proof.
  intros Hm. unfold round_nearest_even.
  destruct l as [|[]]; try destruct (Z.even m); lia.
Qed.

(** Rounding a non-negative mantissa with the sign [+] gives no NaN and no
    sign [-]. *)
Lemma binary_round_aux_plus m e l :
  0 <= m ->
  let r := binary_round_aux Float.prec Float.emax false m e l in
  plus_signed r = true /\ Float.is_nan r = false.
Proof.
  intros Hm. unfold binary_round_aux.
  pose proof (shr_fexp_nonneg m e l Hm) as H1.
  destruct (shr_fexp Float.prec Float.emax m e l) as [mrs1 e1].
  simpl in H1.
  pose proof (round_nearest_even_nonneg (shr_m mrs1) (loc_of_shr_record mrs1) H1)
    as H2.
  pose proof (shr_fexp_nonneg _ e1 loc_Exact H2) as H3.
  destruct (shr_fexp Float.prec Float.emax _ e1 loc_Exact) as [mrs2 e2].
  simpl in H3. destruct (shr_m mrs2) as [|p|p]; simpl; [auto| |lia].
  destruct (e2 <=? _); auto.
Qed.

Lemma pow2_plus x y :
  Float.pow2 x = Ok y -> plus_signed y = true.
Proof.
  unfold Float.pow2. destruct x as [s|s| |s m e]; try (intros [= <-]; reflexivity).
  destruct (Float.is_finite _) eqn:Hfin; [|discriminate]. intros [= <-].
  unfold Float.mul, SFmul. rewrite xorb_nilpotent.
  apply (binary_round_aux_plus (Zpos (m * m)) (e + e) loc_Exact). lia.
Qed.

Lemma add_plus x y :
  plus_signed x = true -> plus_signed y = true ->
  plus_signed (Float.add x y) = true.
Proof.
  destruct x as [sx|sx| |sx mx ex], y as [sy|sy| |sy my ey];
    cbn [plus_signed]; rewrite ?negb_true_iff; intros Hx Hy; subst;
    try reflexivity.
  unfold Float.add, SFadd, cond_Zopp, binary_normalize.
  destruct (_ + _) as [|p|p] eqn:Hp; [reflexivity| |simpl in Hp; lia].
  unfold binary_round. destruct (shl_align p _ _) as [mz ez].
  exact (proj1 (binary_round_aux_plus (Zpos mz) ez loc_Exact ltac:(lia))).
Qed.

Lemma math_sqrt_plus x :
  plus_signed x = true ->
  exists r, Float.math_sqrt x = Ok r /\ plus_signed r = true.
Proof.
  unfold Float.math_sqrt.
  destruct x as [s|s| |s m e]; cbn [plus_signed]; rewrite ?negb_true_iff;
    intros Hx; subst; try (eexists; split; reflexivity).
  cbn [SFsqrt]. unfold SFsqrt_core_binary.
  destruct (Z.sqrtrem _) as [q r] eqn:Hq.
  assert (0 <= q) as Hq0.
  { change q with (fst (q, r)). rewrite <- Hq, Z.sqrtrem_sqrt.
    apply Z.sqrt_nonneg. }
  match goal with
  | |- context [binary_round_aux _ _ false q ?e' ?l] =>
      destruct (binary_round_aux_plus q e' l Hq0) as [Hp Hn]
  end.
  rewrite Hn. simpl. eauto.
Qed.

Lemma plus_signed_not_negative r :
  plus_signed r = true -> Float.ltb r Float.zero = false.
Proof.
  destruct r as [s|s| |s m e]; cbn [plus_signed]; rewrite ?negb_true_iff;
    intros H; subst; reflexivity.
Qed.

Lemma calculate_distance_cases x1 y1 x2 y2 :
  (exists r, calculate_distance x1 y1 x2 y2 = Ok r /\ plus_signed r = true)
  \/ calculate_distance x1 y1 x2 y2 = Raise OverflowError.
Proof.
  unfold calculate_distance.
  destruct (pow2_cases (Float.sub x2 x1)) as [[a Ha]| ->]; [|right; reflexivity].
  rewrite Ha, bind_Ok.
  destruct (pow2_cases (Float.sub y2 y1)) as [[b Hb]| ->]; [|right; reflexivity].
  rewrite Hb, bind_Ok. left.
  destruct (math_sqrt_plus (Float.add a b)) as (r & -> & Hr).
  { apply add_plus; eapply pow2_plus; eauto. }
  eauto.
Qed.

(** X6: [calculate_distance] either returns a float that is not negative
    (possibly a NaN or [+inf]) or raises [OverflowError], when a square
    overflows; the square root never fails, so [ValueError] is never
    raised. *)
Theorem calculate_distance_outcomes x1 y1 x2 y2 :
  (exists r, calculate_distance x1 y1 x2 y2 = Ok r
             /\ Float.ltb r Float.zero = false)
  \/ calculate_distance x1 y1 x2 y2 = Raise OverflowError.
Proof.
  destruct (calculate_distance_cases x1 y1 x2 y2) as [(r & Hr & Hp)|Hr];
    [left|right; exact Hr].
  exists r. split; [exact Hr|]. apply plus_signed_not_negative, Hp.
Qed.

(** The sign given to [binary_round_aux] only shows in the sign of the
    result. *)
Lemma binary_round_aux_abs s m e l :
  SFabs (binary_round_aux Float.prec Float.emax s m e l)
  = SFabs (binary_round_aux Float.prec Float.emax false m e l).
Proof.
  unfold binary_round_aux.
  destruct (shr_fexp Float.prec Float.emax m e l) as [mrs1 e1].
  destruct (shr_fexp Float.prec Float.emax _ e1 loc_Exact) as [mrs2 e2].
  destruct (shr_m mrs2); try reflexivity.
  destruct (e2 <=? _); reflexivity.
Qed.

Lemma binary_normalize_opp_abs z e :
  SFabs (binary_normalize Float.prec Float.emax (- z) e false)
  = SFabs (binary_normalize Float.prec Float.emax z e false).
Proof.
  destruct z as [|p|p]; [reflexivity| |];
    [change (- Z.pos p) with (Z.neg p) | change (- Z.neg p) with (Z.pos p)];
    cbn [binary_normalize]; unfold binary_round;
    destruct (shl_align p _ _) as [mz ez];
    rewrite (binary_round_aux_abs true); reflexivity.
Qed.

(** Exchanging the operands of a subtraction changes at most the sign. *)
Lemma sub_swap_abs a b : SFabs (Float.sub a b) = SFabs (Float.sub b a).
Proof.
  destruct a as [sa|sa| |sa ma ea], b as [sb|sb| |sb mb eb];
    try reflexivity; try (destruct sa, sb; reflexivity).
  unfold Float.sub, SFsub. rewrite (Z.min_comm eb ea).
  rewrite <- binary_normalize_opp_abs. f_equal. f_equal. lia.
Qed.

(** The square depends on the magnitude only. *)
Lemma pow2_abs x y : SFabs x = SFabs y -> Float.pow2 x = Float.pow2 y.
Proof.
  destruct x as [sx|sx| |sx mx ex], y as [sy|sy| |sy my ey];
    try discriminate; try reflexivity.
  intros [= -> ->]. unfold Float.pow2, Float.mul, SFmul.
  rewrite !xorb_nilpotent. reflexivity.
Qed.

(** X7: the distance is symmetric: exchanging the two points changes
    neither the value returned nor the exception raised. *)
Theorem calculate_distance_symmetric x1 y1 x2 y2 :
  calculate_distance x1 y1 x2 y2 = calculate_distance x2 y2 x1 y1.
Proof.
  unfold calculate_distance.
  rewrite (pow2_abs _ _ (sub_swap_abs x2 x1)), (pow2_abs _ _ (sub_swap_abs y2 y1)).
  reflexivity.
Qed.

Lemma sub_diag_finite x :
  Float.is_finite x = true -> Float.sub x x = Float.zero.
Proof.
  destruct x as [s|s| |s m e]; try discriminate; intros _.
  - destruct s; reflexivity.
  - unfold Float.sub, SFsub. rewrite Z.sub_diag. reflexivity.
Qed.

(** X8: two points with the same finite coordinates are at distance
    [+0.0]. *)
Theorem calculate_distance_same_point x y :
  Float.is_finite x = true -> Float.is_finite y = true ->
  calculate_distance x y x y = Ok Float.zero.
Proof.
  intros Hx Hy. unfold calculate_distance.
  rewrite (sub_diag_finite x Hx), (sub_diag_finite y Hy). reflexivity.
Qed.

Lemma calculate_distance_same_point_witness :
  Float.is_finite (Float.of_Z 3) = true
  /\ Float.is_finite (Float.of_Z (-7)) = true
  /\ calculate_distance (Float.of_Z 3) (Float.of_Z (-7)) (Float.of_Z 3)
       (Float.of_Z (-7)) = Ok Float.zero.
Proof.
  exact (conj eq_refl (conj eq_refl
    (calculate_distance_same_point (Float.of_Z 3) (Float.of_Z (-7)) eq_refl eq_refl))).
Defined.

(** * Properties of the tokens *)

Lemma all_chars_rev_app P : forall s1 s2,
  all_chars P (String.rev_app s1 s2) = all_chars P s1 && all_chars P s2.
Proof.
  induction s1 as [|a s1 IH]; intros s2; simpl; [reflexivity|].
  rewrite IH. simpl. destruct (P a), (all_chars P s1); reflexivity.
Qed.

Lemma rev_app_nonempty : forall s1 s2,
  s2 <> EmptyString -> String.rev_app s1 s2 <> EmptyString.
Proof.
  induction s1 as [|a s1 IH]; intros s2 H; simpl; [exact H|].
  apply IH. discriminate.
Qed.

(** The words of [split()] are not empty and hold no whitespace; they keep
    any property of the characters of the string. *)
Lemma split_ws_go_words P : forall s cur,
  all_chars P s = true ->
  (forall w, cur = Some w ->
     w <> EmptyString
     /\ all_chars (fun c => negb (Str.isspace c) && P c) w = true) ->
  Forall (fun t => t <> EmptyString
                   /\ all_chars (fun c => negb (Str.isspace c) && P c) t = true)
    (Str.split_ws_go cur s).
Proof.
  assert (Hrev : forall w,
    w <> EmptyString
    /\ all_chars (fun c => negb (Str.isspace c) && P c) w = true ->
    String.rev w <> EmptyString
    /\ all_chars (fun c => negb (Str.isspace c) && P c) (String.rev w) = true).
  { intros w [Hne Hall]. unfold String.rev. split.
    - destruct w as [|a w]; [contradiction|]. simpl.
      apply rev_app_nonempty. discriminate.
    - rewrite all_chars_rev_app, Hall. reflexivity. }
  induction s as [|c s IH]; intros cur Hs Hcur; simpl.
  - destruct cur as [w|]; [|constructor].
    constructor; [|constructor]. apply Hrev, Hcur. reflexivity.
  - simpl in Hs. apply andb_true_iff in Hs as [Hc Hs].
    destruct (Str.isspace c) eqn:Hsp.
    + destruct cur as [w|].
      * constructor; [apply Hrev, Hcur; reflexivity|].
        apply IH; [exact Hs|discriminate].
      * apply IH; [exact Hs|discriminate].
    + apply IH; [exact Hs|]. intros w [= <-]. split; [discriminate|].
      simpl. rewrite Hsp, Hc. simpl.
      destruct cur as [w|]; [apply Hcur; reflexivity|reflexivity].
Qed.

Lemma replace_comma_cons c s :
  Str.replace "," " " (String c s)
  = String (if Ascii.eqb "," c then " "%char else c) (Str.replace "," " " s).
Proof.
  unfold Str.replace. cbn [Str.replace_go Str.startswith String.length Nat.pred].
  destruct (Ascii.eqb "," c); reflexivity.
Qed.

Lemma replace_comma_no_comma : forall s,
  all_chars (fun c => negb (Ascii.eqb c ",")) (Str.replace "," " " s) = true.
Proof.
  induction s as [|c s IH]; [reflexivity|].
  rewrite replace_comma_cons. cbn [all_chars]. rewrite IH, andb_true_r.
  destruct (Ascii.eqb_spec "," c) as [<-|Hne]; [reflexivity|].
  apply negb_true_iff, Ascii.eqb_neq. congruence.
Qed.

Lemma replace_comma_app : forall a b,
  Str.replace "," " " (a +:+ b)
  = Str.replace "," " " a +:+ Str.replace "," " " b.
Proof.
  induction a as [|c a IH]; intros b; [reflexivity|].
  change (String c a +:+ b) with (String c (a +:+ b)).
  rewrite !replace_comma_cons, IH. reflexivity.
Qed.

(** X9: no token of a path data string is empty, and none holds a comma or
    a whitespace character. *)
Theorem tokens_hold_no_separator d_attr :
  Forall (fun t => t <> EmptyString
                   /\ all_chars (fun c => negb (is_separator c)) t = true)
    (tokenize d_attr).
Proof.
  unfold tokenize, Str.split_ws.
  eapply Forall_impl.
  - apply (split_ws_go_words (fun c => negb (Ascii.eqb c ","))).
    + apply replace_comma_no_comma.
    + discriminate.
  - intros t [Hne Hall]. split; [exact Hne|].
    clear Hne. induction t as [|c t IH]; [reflexivity|].
    simpl in Hall |- *. apply andb_true_iff in Hall as [Hc Ht].
    rewrite (IH Ht), andb_true_r. unfold is_separator.
    rewrite negb_orb. exact Hc.
Qed.

(** X10: a comma separates tokens exactly as a space does. *)
Theorem comma_is_space a b :
  tokenize (a +:+ "," +:+ b) = tokenize (a +:+ " " +:+ b).
Proof.
  unfold tokenize. rewrite !replace_comma_app. reflexivity.
Qed.

(** * Which elements make the wall filter raise *)

Lemma push_length c l : length (Str.push c l) = Nat.max 1 (length l).
Proof. destruct l; reflexivity. Qed.

(** [split] yields a single piece exactly when [find] finds nothing. *)
Lemma split_find c sep' : forall s,
  let sep := String c sep' in
  match Str.find sep s with
  | None => length (Str.split sep s) = 1%nat
  | Some _ => (2 <= length (Str.split sep s))%nat
  end.
Proof.
  intros s sep. unfold Str.split. induction s as [|a s IH].
  - reflexivity.
  - cbn [Str.find Str.split_go].
    destruct (Str.startswith sep (String a s)).
    + match goal with
      | |- context [Str.split_go ?a ?k s] =>
          pose proof (split_go_nonempty a s k) as Hne;
          destruct (Str.split_go a k s); [contradiction|]
      end.
      simpl. lia.
    + rewrite push_length.
      destruct (Str.find sep s); simpl; lia.
Qed.

Lemma index_1_length {A} (l : list A) :
  (index l 1 = Raise IndexError <-> (length l <= 1)%nat)
  /\ ((exists x, index l 1 = Ok x) <-> (2 <= length l)%nat).
Proof.
  unfold index. destruct l as [|x [|y l]]; simpl.
  - split; split; try intros [? ?]; intros; try discriminate; auto; lia.
  - split; split; try intros [? ?]; intros; try discriminate; auto; lia.
  - split; split; try intros [? ?]; intros; try discriminate; eauto; lia.
Qed.

Lemma index_0_split sep s : exists p, index (Str.split sep s) 0 = Ok p.
Proof.
  unfold index, Str.split. pose proof (split_go_nonempty sep s O) as H.
  destruct (Str.split_go sep 0 s); [contradiction|]. simpl. eauto.
Qed.

(** The only exception from the reading of the stroke width is the
    [IndexError] of a style that mentions [stroke-width] without
    [stroke-width:]. *)
Lemma stroke_width_raises style_attr e :
  stroke_width style_attr = Raise e <->
    e = IndexError
    /\ Str.contains "stroke-width" style_attr = true
    /\ Str.find "stroke-width:" style_attr = None.
Proof.
  unfold stroke_width.
  pose proof (split_find "s" "troke-width:" style_attr) as Hsf. cbv zeta in Hsf.
  pose proof (index_1_length (Str.split "stroke-width:" style_attr)) as [Hi1 Hi2].
  destruct (Str.contains "stroke-width" style_attr);
    [|split; [discriminate|intros (_ & ? & _); discriminate]].
  destruct (Str.find "stroke-width:" style_attr) as [n|].
  - apply Hi2 in Hsf as [after ->]. rewrite bind_Ok.
    destruct (index_0_split ";" after) as [p ->]. rewrite bind_Ok.
    destruct (of_string_cases (Str.replace "px" "" p)) as [[x ->]| ->]; simpl;
      (split; [discriminate|intros (_ & _ & ?); discriminate]).
  - assert (Hr : index (Str.split "stroke-width:" style_attr) 1 = Raise IndexError)
      by (apply Hi1; lia).
    rewrite Hr. simpl. split; [intros [= <-]; auto|intros (-> & _); reflexivity].
Qed.

Lemma first_segment_length_overflow commands :
  first_segment_length commands = Raise OverflowError ->
  (6 <= length commands)%nat.
Proof.
  unfold first_segment_length, index, mbind, Res_bind.
  destruct (commands !! 1%nat); [|discriminate].
  destruct (of_string_cases s) as [[? ->]| ->]; [|discriminate].
  destruct (commands !! 2%nat); [|discriminate].
  destruct (of_string_cases s0) as [[? ->]| ->]; [|discriminate].
  destruct (commands !! 4%nat); [|discriminate].
  destruct (of_string_cases s1) as [[? ->]| ->]; [|discriminate].
  destruct (commands !! 5%nat) eqn:H5; [|discriminate].
  intros _. apply lookup_lt_Some in H5. lia.
Qed.

Lemma first_segment_length_exceptions commands e :
  first_segment_length commands = Raise e ->
  e = IndexError \/ e = ValueError \/ e = OverflowError.
Proof.
  unfold first_segment_length, index, mbind, Res_bind.
  destruct (commands !! 1%nat) as [c1|]; [|intros [= <-]; auto].
  destruct (of_string_cases c1) as [[x1 ->]| ->]; [|intros [= <-]; auto].
  destruct (commands !! 2%nat) as [c2|]; [|intros [= <-]; auto].
  destruct (of_string_cases c2) as [[y1 ->]| ->]; [|intros [= <-]; auto].
  destruct (commands !! 4%nat) as [c4|]; [|intros [= <-]; auto].
  destruct (of_string_cases c4) as [[x2 ->]| ->]; [|intros [= <-]; auto].
  destruct (commands !! 5%nat) as [c5|]; [|intros [= <-]; auto].
  destruct (of_string_cases c5) as [[y2 ->]| ->]; [|intros [= <-]; auto].
  intros Hd.
  destruct (calculate_distance_cases x1 y1 x2 y2) as [(r & Hr & _)|Hr];
    rewrite Hr in Hd; [discriminate|injection Hd as <-; auto].
Qed.

(** The exception an element raises, spelled out. *)
Lemma faults_cases min_segment_length element e :
  faults min_segment_length element = Some e <->
    local_name (tag element) = "path"
    /\ (e = IndexError
        /\ Str.contains "stroke-width" (style_attr_of element) = true
        /\ Str.find "stroke-width:" (style_attr_of element) = None
        \/ e = OverflowError
           /\ (exists w, stroke_width (style_attr_of element) = Ok w
                         /\ Float.ltb half w = true)
           /\ first_segment_length (tokenize (d_attr_of element))
              = Raise OverflowError).
Proof.
  unfold faults, visit. rewrite index_last_split, bind_Ok.
  fold (style_attr_of element) (d_attr_of element) (path_id_of element).
  destruct (String.eqb_spec (local_name (tag element)) "path") as [Ht|Ht];
    [|split; [discriminate|intros [? _]; contradiction]].
  pose proof (stroke_width_raises (style_attr_of element)) as Hsw.
  pose proof (stroke_width_not_fuel (style_attr_of element)) as Hnf.
  destruct (stroke_width (style_attr_of element)) as [w|e'|]; [| |contradiction].
  - rewrite bind_Ok.
    assert (Hno : ~ (Str.contains "stroke-width" (style_attr_of element) = true
                     /\ Str.find "stroke-width:" (style_attr_of element) = None)).
    { intros [H1 H2].
      assert (Ok w = Raise IndexError) by (apply Hsw; auto). discriminate. }
    destruct (Float.ltb half w) eqn:Hw.
    2:{ split; [discriminate|].
        intros (_ & [(_ & H1 & H2)|(_ & (w' & [= <-] & Hw') & _)]);
          [exfalso; apply Hno; auto|congruence]. }
    rewrite segment_long_enough_spec.
    pose proof (first_segment_length_not_fuel (tokenize (d_attr_of element))) as Hnf'.
    pose proof (first_segment_length_overflow (tokenize (d_attr_of element))) as Hov.
    pose proof (first_segment_length_exceptions (tokenize (d_attr_of element))) as Hex.
    destruct (first_segment_length (tokenize (d_attr_of element))) as [len|e'|];
      [| |contradiction].
    + destruct (4 <=? _)%nat; [rewrite bind_Ok; destruct (Float.leb _ _)|];
        (split; [discriminate|]);
        (intros (_ & [(_ & H1 & H2)|(_ & _ & ?)]);
          [exfalso; apply Hno; auto|discriminate]).
    + destruct (Hex e' eq_refl) as [-> | [-> | ->]].
      * destruct (4 <=? _)%nat; simpl; (split; [discriminate|]);
          (intros (_ & [(_ & H1 & H2)|(_ & _ & ?)]);
            [exfalso; apply Hno; auto|discriminate]).
      * destruct (4 <=? _)%nat; simpl; (split; [discriminate|]);
          (intros (_ & [(_ & H1 & H2)|(_ & _ & ?)]);
            [exfalso; apply Hno; auto|discriminate]).
      * specialize (Hov eq_refl).
        destruct (Nat.leb_spec 4 (length (tokenize (d_attr_of element)))); [|lia].
        simpl. split.
        -- intros [= <-]. split; [exact Ht|]. right. eauto.
        -- intros (_ & [(_ & H1 & H2)|(-> & _ & _)]);
             [exfalso; apply Hno; auto|reflexivity].
  - simpl. split.
    + intros [= <-]. split; [exact Ht|]. left. apply Hsw. reflexivity.
    + intros (_ & [(-> & H1 & H2)|(_ & (w & ? & _) & _)]); [|discriminate].
      f_equal. symmetry.
      assert (Raise e' = Raise IndexError) as [= ->]
        by (apply Hsw; auto). reflexivity.
Qed.

Lemma visit_raises min_segment_length element wall_paths e :
  visit min_segment_length element wall_paths = Raise e
  <-> faults min_segment_length element = Some e.
Proof.
  rewrite visit_spec. destruct (faults min_segment_length element).
  - split; congruence.
  - split; discriminate.
Qed.

(** X11: the loop body raises for an element in two cases only, both for
    path elements: [IndexError] when the style mentions [stroke-width] but
    nowhere [stroke-width:], and [OverflowError] when the stroke width is
    above 0.5 and a square of the distance computation overflows. *)
Theorem visit_raises_exactly min_segment_length element wall_paths e :
  visit min_segment_length element wall_paths = Raise e <->
    local_name (tag element) = "path"
    /\ (e = IndexError
        /\ Str.contains "stroke-width" (style_attr_of element) = true
        /\ Str.find "stroke-width:" (style_attr_of element) = None
        \/ e = OverflowError
           /\ (exists w, stroke_width (style_attr_of element) = Ok w
                         /\ Float.ltb half w = true)
           /\ first_segment_length (tokenize (d_attr_of element))
              = Raise OverflowError).
Proof. rewrite visit_raises. apply faults_cases. Qed.

Lemma visit_raises_exactly_witness :
  visit default_min_segment_length
    (mkElement "path" {[ "style" := "stroke-width=2" ]} []) []
  = Raise IndexError.
Proof.
  apply (proj2 (visit_raises_exactly default_min_segment_length
                  (mkElement "path" {[ "style" := "stroke-width=2" ]} []) []
                  IndexError)).
  split; [reflexivity|]. left. repeat split; reflexivity.
Defined.



(** X13: an element without a [style] attribute is passed over without an
    exception, whatever its tag and its path data. *)
Theorem missing_style_skipped min_segment_length element wall_paths :
  attrib element !! "style" = None ->
  visit min_segment_length element wall_paths = Ok wall_paths.
Proof.
  intros Hs. apply stroke_width_zero_skipped.
  unfold style_attr_of. rewrite Hs. reflexivity.
Qed.

Lemma missing_style_skipped_witness :
  (attrib (mkElement "path" {[ "d" := "M 0 0 L 20 0" ]} []) !! "style" = None)
  /\ visit default_min_segment_length
       (mkElement "path" {[ "d" := "M 0 0 L 20 0" ]} []) []
     = Ok [].
Proof.
  exact (conj eq_refl
    (missing_style_skipped default_min_segment_length
       (mkElement "path" {[ "d" := "M 0 0 L 20 0" ]} []) [] eq_refl)).
Defined.

(** X14: an element whose path data has fewer than six tokens (none at all
    when the [d] attribute is missing) is never recorded, also when it has the
    four tokens that line 53 asks for, and its path data raises nothing. *)
Theorem short_path_data_skipped min_segment_length element wall_paths :
  (length (tokenize (d_attr_of element)) < 6)%nat ->
  visit min_segment_length element wall_paths = Ok wall_paths
  \/ visit min_segment_length element wall_paths = Raise IndexError
     /\ Str.find "stroke-width:" (style_attr_of element) = None.
Proof.
  intros Hlen. rewrite visit_spec.
  destruct (faults min_segment_length element) as [e|] eqn:Hf.
  - right. apply faults_cases in Hf as (_ & [(-> & _ & Hfind)|(_ & _ & Hov)]).
    + auto.
    + apply first_segment_length_overflow in Hov. lia.
  - left. unfold is_wall.
    pose proof (first_segment_length_tokens (tokenize (d_attr_of element))) as Ht.
    destruct (first_segment_length _) as [len| |];
      [specialize (Ht len eq_refl); lia| |];
      rewrite andb_false_r; reflexivity.
Qed.

Lemma short_path_data_skipped_witness :
  (length (tokenize (d_attr_of
     (mkElement "path" {[ "d" := "M 0 0 L 20"; "style" := "stroke-width:2" ]} [])))
   < 6)%nat
  /\ visit default_min_segment_length
       (mkElement "path" {[ "d" := "M 0 0 L 20"; "style" := "stroke-width:2" ]} [])
       [] = Ok [].
Proof.
  assert (H : (length (tokenize (d_attr_of
     (mkElement "path" {[ "d" := "M 0 0 L 20"; "style" := "stroke-width:2" ]} [])))
   < 6)%nat) by (vm_compute; lia).
  split; [exact H|].
  destruct (short_path_data_skipped default_min_segment_length _ [] H)
    as [Hok|[Hr _]]; [exact Hok|].
  vm_compute in Hr. discriminate.
Defined.

(** * The threshold on the segment length *)










(** * The local name of a tag *)

Lemma split_brace_cons c s :
  Str.split "}" (String c s)
  = if Ascii.eqb "}" c then EmptyString :: Str.split "}" s
    else Str.push c (Str.split "}" s).
Proof.
  unfold Str.split. cbn [Str.split_go Str.startswith String.length Nat.pred].
  destruct (Ascii.eqb "}" c); reflexivity.
Qed.

Lemma split_brace_last : forall s,
  exists l x p,
    Str.split "}" s = (l ++ [x])%list
    /\ all_chars (fun c => negb (Ascii.eqb c "}")) x = true
    /\ s = p +:+ x
    /\ (l = [] /\ p = EmptyString \/ l <> [] /\ exists q, p = q +:+ "}").
Proof.
  induction s as [|c s (l & x & p & Hsplit & Hx & Hs & Hp)].
  - exists [], EmptyString, EmptyString. repeat split. left. auto.
  - rewrite split_brace_cons, Hsplit.
    destruct (Ascii.eqb_spec "}" c) as [<-|Hc].
    + exists (EmptyString :: l), x, (String "}" p).
      split; [reflexivity|]. split; [exact Hx|].
      split; [rewrite Hs at 1; reflexivity|]. right. split; [discriminate|].
      destruct Hp as [[_ ->]|[_ [q ->]]];
        [exists EmptyString|exists (String "}" q)]; reflexivity.
    + destruct Hp as [[-> ->]|[Hl [q ->]]].
      * exists [], (String c x), EmptyString.
        split; [reflexivity|]. split.
        { cbn [all_chars]. rewrite Hx, andb_true_r.
          apply negb_true_iff, Ascii.eqb_neq. congruence. }
        split; [rewrite Hs at 1; reflexivity|]. left. auto.
      * destruct l as [|y l]; [contradiction|].
        exists (String c y :: l), x, (String c (q +:+ "}")).
        split; [reflexivity|]. split; [exact Hx|].
        split; [rewrite Hs at 1; reflexivity|]. right. split; [discriminate|].
        exists (String c q). reflexivity.
Qed.

(** X16: the local name compared with ["path"] is what follows the last
    [}] of the tag, and all of the tag when it holds no [}]: the tag is a
    prefix, empty or ending with [}], followed by the local name, which holds
    no [}]. *)
Theorem local_name_follows_last_brace t :
  exists p name,
    index_last (Str.split "}" t) = Ok name
    /\ t = p +:+ name
    /\ all_chars (fun c => negb (Ascii.eqb c "}")) name = true
    /\ (p = EmptyString \/ exists q, p = q +:+ "}").
Proof.
  destruct (split_brace_last t) as (l & x & p & Hsplit & Hx & Hs & Hp).
  exists p, x. split; [|split; [exact Hs|split; [exact Hx|]]].
  - unfold index_last. rewrite Hsplit, last_snoc. reflexivity.
  - destruct Hp as [[_ ->]|[_ Hq]]; auto.
Qed.

(** * The walls of a document and of its subtrees *)

Lemma walls_of_children min_segment_length : forall cs,
  Forall (fun e => faults min_segment_length e = None) (flat_map iter cs) ->
  Forall2
    (fun c w => exists lines,
       parse_svg_for_walls (Parsed c) min_segment_length = Ok (lines, w))
    cs
    ((fun c => to_record <$> List.filter (is_wall min_segment_length) (iter c))
       <$> cs)
  /\ to_record <$> List.filter (is_wall min_segment_length) (flat_map iter cs)
     = concat
         ((fun c => to_record <$> List.filter (is_wall min_segment_length) (iter c))
            <$> cs).
Proof.
  induction cs as [|c cs IH]; intros Hall; [split; [constructor|reflexivity]|].
  cbn [flat_map] in Hall. apply Forall_app in Hall as [Hc Hcs].
  destruct (IH Hcs) as [IH1 IH2]. split.
  - constructor; [|exact IH1].
    unfold parse_svg_for_walls. rewrite (for_each_ok _ _ Hc), bind_Ok. eauto.
  - cbn [flat_map]. rewrite List.filter_app, fmap_app, IH2. reflexivity.
Qed.

(** X17: the list returned for a document is what the root element
    contributes followed by the lists returned for the subtrees of its
    children, in order: where an element sits in the tree does not change
    whether it is recorded. *)
Theorem walls_of_subtrees t attrs cs min_segment_length lines walls :
  parse_svg_for_walls (Parsed (mkElement t attrs cs)) min_segment_length
  = Ok (lines, walls) ->
  exists own per_child,
    visit min_segment_length (mkElement t attrs cs) [] = Ok own
    /\ Forall2
         (fun c w => exists lines',
            parse_svg_for_walls (Parsed c) min_segment_length = Ok (lines', w))
         cs per_child
    /\ walls = (own ++ concat per_child)%list.
Proof.
  unfold parse_svg_for_walls at 1.
  pose proof (for_each_spec min_segment_length (iter (mkElement t attrs cs)) [])
    as H.
  destruct (for_each _ _ _) as [out| |]; simpl; try discriminate.
  destruct H as [-> Hall]. intros [= _ <-].
  cbn [iter] in Hall |- *. apply Forall_cons in Hall as [Hroot Hcs].
  destruct (walls_of_children min_segment_length cs Hcs) as [H1 H2].
  eexists _, _. split; [|split; [exact H1|]].
  - rewrite visit_spec, Hroot. reflexivity.
  - cbn [List.filter].
    destruct (is_wall min_segment_length (mkElement t attrs cs));
      cbn [fmap list_fmap app]; rewrite <- H2; reflexivity.
Qed.

Lemma walls_of_subtrees_witness :
  exists own per_child,
    visit default_min_segment_length floor_plan [] = Ok own
    /\ Forall2
         (fun c w => exists lines',
            parse_svg_for_walls (Parsed c) default_min_segment_length
            = Ok (lines', w))
         (children floor_plan) per_child
    /\ [mkPathRecord "p1" "M 0 0 L 20 0" "fill:none;stroke-width:2px;";
        mkPathRecord "N/A" "M 0,0 L 0,10 Z" "stroke-width:0.50001px"]
       = (own ++ concat per_child)%list.
Proof.
  exact (walls_of_subtrees _ _ _ default_min_segment_length _ _
           (eq_refl : parse_svg_for_walls (Parsed floor_plan)
                        default_min_segment_length = Ok (_, _))).
Defined.

(** * Properties of the drawing loop *)

Lemma add_patches_ok : forall wall_paths patches out,
  add_patches wall_paths patches = Ok out <->
    exists all_points,
      Forall2 (fun r pts => parse_d_attribute (wp_d r) default_scale = Ok pts)
        wall_paths all_points
      /\ out = (patches
                ++ List.filter (fun pts => negb (no_points pts)) all_points)%list.
Proof.
  induction wall_paths as [|r rest IH]; intros patches out; cbn [add_patches].
  - split.
    + intros [= <-]. exists []. split; [constructor|].
      rewrite app_nil_r. reflexivity.
    + intros (all_points & Hall & ->). inversion Hall; subst.
      rewrite app_nil_r. reflexivity.
  - destruct (parse_d_attribute (wp_d r) default_scale) as [pts| |] eqn:Hp.
    + rewrite bind_Ok, IH. split.
      * intros (all_points & Hall & ->). exists (pts :: all_points).
        split; [constructor; assumption|].
        destruct pts; cbn [List.filter no_points negb];
          [|rewrite <- app_assoc]; reflexivity.
      * intros (all_points & Hall & ->).
        inversion Hall as [|? pts' ? all_points' Hr Hrest]; subst.
        rewrite Hp in Hr. injection Hr as <-.
        exists all_points'. split; [exact Hrest|].
        destruct pts; cbn [List.filter no_points negb];
          [|rewrite <- app_assoc]; reflexivity.
    + split; [discriminate|].
      intros (all_points & Hall & _). inversion Hall; subst. congruence.
    + split; [discriminate|].
      intros (all_points & Hall & _). inversion Hall; subst. congruence.
Qed.

Lemma Forall2_exists_Forall {A B} (R : A -> B -> Prop) (l : list A) :
  Forall (fun a => exists b, R a b) l <-> exists k, Forall2 R l k.
Proof.
  split.
  - induction 1 as [|a l [b Hb] _ [k Hk]]; [exists []; constructor|].
    exists (b :: k). constructor; assumption.
  - intros [k Hk]. induction Hk; constructor; eauto.
Qed.

(** X18: after [parse_svg_for_walls] has returned its walls,
    [visualize_wall_paths] returns exactly when the path data of every wall
    is well formed for the interpreter; the filter does not ensure it, and
    one wall with other path data makes the whole drawing raise. *)
Theorem visualize_returns_iff parsed lines walls :
  parse_svg_for_walls parsed default_min_segment_length = Ok (lines, walls) ->
  (exists patches, visualize_wall_paths parsed = Ok (lines, patches))
  <-> Forall (fun r => well_formed false (tokenize (wp_d r)) = true) walls.
Proof.
  intros Hp. unfold visualize_wall_paths. rewrite Hp, bind_Ok. cbn [fst snd].
  transitivity (exists out, add_patches walls [] = Ok out).
  - destruct (add_patches walls []) as [out| |]; simpl;
      split; intros [x Hx]; try discriminate; eauto.
  - transitivity
      (Forall (fun r => exists pts,
                 parse_d_attribute (wp_d r) default_scale = Ok pts) walls).
    + rewrite Forall2_exists_Forall. split.
      * intros [out Hout]. apply add_patches_ok in Hout as (k & Hk & _). eauto.
      * intros [k Hk]. eexists. apply add_patches_ok. eauto.
    + apply Forall_iff. intros r. apply parse_d_attribute_ok_iff.
Qed.

Lemma visualize_returns_iff_witness :
  exists patches,
    visualize_wall_paths (Parsed floor_plan)
    = Ok ([Detected_potential_wall_paths 2;
           Sample_path_data
             [mkPathRecord "p1" "M 0 0 L 20 0" "fill:none;stroke-width:2px;";
              mkPathRecord "N/A" "M 0,0 L 0,10 Z" "stroke-width:0.50001px"]],
          patches).
Proof.
  apply (proj2 (visualize_returns_iff (Parsed floor_plan) _ _ eq_refl)).
  repeat constructor.
Defined.

(** X19: the patches [visualize_wall_paths] adds are the lists of points of
    the detected walls, in order, without the empty ones: there are at most
    as many patches as walls, and none is empty. *)
Theorem patches_of_walls parsed lines patches :
  visualize_wall_paths parsed = Ok (lines, patches) ->
  exists walls all_points,
    parse_svg_for_walls parsed default_min_segment_length = Ok (lines, walls)
    /\ Forall2 (fun r pts => parse_d_attribute (wp_d r) default_scale = Ok pts)
         walls all_points
    /\ patches = List.filter (fun pts => negb (no_points pts)) all_points
    /\ (length patches <= length walls)%nat
    /\ Forall (fun pts => pts <> []) patches.
Proof.
  unfold visualize_wall_paths.
  destruct (parse_svg_for_walls parsed default_min_segment_length)
    as [[lines' walls]| |]; try discriminate.
  rewrite bind_Ok. cbn [fst snd].
  destruct (add_patches walls []) as [out| |] eqn:Ha; try discriminate.
  rewrite bind_Ok. intros [= <- <-].
  apply add_patches_ok in Ha as (all_points & Hall & ->). cbn [app].
  exists walls, all_points. repeat split; try assumption.
  - rewrite (Forall2_length _ _ _ Hall). apply List.filter_length_le.
  - apply Forall_forall. intros pts Hin.
    apply list_elem_of_In, List.filter_In in Hin as [_ Hne].
    destruct pts; [discriminate|discriminate].
Qed.

Lemma patches_of_walls_witness :
  exists walls all_points,
    parse_svg_for_walls
      (Parsed (mkElement "path"
                 {[ "d" := "m 0 0 l 20 0"; "style" := "stroke-width:1" ]} []))
      default_min_segment_length
    = Ok ([Detected_potential_wall_paths 1;
           Sample_path_data [mkPathRecord "N/A" "m 0 0 l 20 0" "stroke-width:1"]],
          walls)
    /\ Forall2 (fun r pts => parse_d_attribute (wp_d r) default_scale = Ok pts)
         walls all_points
    /\ (@nil (list point))
       = List.filter (fun pts => negb (no_points pts)) all_points
    /\ (0 <= length walls)%nat
    /\ Forall (fun pts : list point => pts <> []) [].
Proof.
  exact (patches_of_walls
           (Parsed (mkElement "path"
                      {[ "d" := "m 0 0 l 20 0"; "style" := "stroke-width:1" ]} []))
           _ [] eq_refl).
Defined.

(** * Closing a path *)

(** Without [Z] the current point is the last point made. *)
Lemma run_current_point scale n : forall toks cp pts cp' pts',
  (length toks <= n)%nat ->
  "Z" ∉ toks ->
  (pts = [] \/ last pts = Some cp) ->
  run scale toks cp pts = Ok (cp', pts') ->
  pts' = [] \/ last pts' = Some cp'.
Proof.
  induction n as [|n IH]; intros toks cp pts cp' pts' Hn HZ Hinv;
    (destruct toks as [|cmd rest]; [intros [= <- <-]; exact Hinv|]);
    [simpl in Hn; lia|].
  simpl in Hn. cbn [run].
  assert (HZr : forall l, (exists k, rest = (k ++ l)%list) -> "Z" ∉ l).
  { intros l [k ->] Hin. apply HZ. right. apply elem_of_app. auto. }
  destruct (String.eqb cmd "M" || String.eqb cmd "L").
  { destruct rest as [|a [|b rest2]]; try discriminate;
      [destruct (Float.of_string a); discriminate|].
    destruct (Float.of_string a) as [x| |]; try discriminate.
    destruct (Float.of_string b) as [y| |]; try discriminate.
    apply IH; [simpl in Hn; lia| |right; apply last_snoc].
    apply HZr. exists [a; b]. reflexivity. }
  destruct (String.eqb cmd "H").
  { destruct rest as [|a rest1]; try discriminate.
    destruct (Float.of_string a) as [x| |]; try discriminate.
    apply IH; [simpl in Hn; lia| |right; apply last_snoc].
    apply HZr. exists [a]. reflexivity. }
  destruct (String.eqb cmd "V").
  { destruct rest as [|a rest1]; try discriminate.
    destruct (Float.of_string a) as [x| |]; try discriminate.
    apply IH; [simpl in Hn; lia| |right; apply last_snoc].
    apply HZr. exists [a]. reflexivity. }
  destruct (String.eqb_spec cmd "Z") as [->|_].
  { exfalso. apply HZ. left. }
  apply IH; [lia| |exact Hinv]. apply HZr. exists []. reflexivity.
Qed.

(** X20: a [Z] after an accepted list of tokens emits the first point of
    the whole list again, also when the path has begun anew with a later
    [M]. *)
Theorem close_returns_to_first_point scale c1 c2 p pts1 pts :
  interpret scale c1 = Ok (p :: pts1) ->
  interpret scale (c1 ++ "Z" :: c2)%list = Ok pts ->
  exists more, pts = ((p :: pts1) ++ p :: more)%list.
Proof.
  rewrite !interpret_run.
  destruct (run scale c1 (Float.zero, Float.zero) []) as [[cp1 pts1']| |] eqn:H1;
    try discriminate.
  intros [= ->].
  rewrite (run_app scale ("Z" :: c2) _ c1 _ _ _ _ (Nat.le_refl _) H1).
  cbn [run String.eqb Ascii.eqb Bool.eqb orb andb app].
  destruct (run scale c2 cp1 _) as [[cp2 pts2]| |] eqn:H2; try discriminate.
  intros [= <-].
  destruct (run_points scale _ _ _ _ _ _ (Nat.le_refl _) H2) as (more & -> & _).
  exists more. cbn [app]. f_equal. rewrite <- app_assoc. reflexivity.
Qed.

Lemma close_returns_to_first_point_witness :
  exists more,
    [(Float.of_Z 0, Float.of_Z 0); (Float.of_Z 100, Float.of_Z 100);
     (Float.of_Z 0, Float.of_Z 0); (Float.of_Z 500, Float.of_Z 500);
     (Float.of_Z 0, Float.of_Z 0)]
    = ([(Float.of_Z 0, Float.of_Z 0); (Float.of_Z 100, Float.of_Z 100);
        (Float.of_Z 0, Float.of_Z 0); (Float.of_Z 500, Float.of_Z 500)]
       ++ (Float.of_Z 0, Float.of_Z 0) :: more)%list.
Proof.
  apply (close_returns_to_first_point default_scale
           ["M"; "0"; "0"; "L"; "1"; "1"; "Z"; "M"; "5"; "5"] []);
    vm_compute; reflexivity.
Defined.

(** The points a run adds do not depend on the points made before, as long
    as there is one and the first one is the same. *)
Lemma run_same_head scale n : forall toks cp A B cp' A',
  (length toks <= n)%nat ->
  A <> [] -> head A = head B ->
  run scale toks cp A = Ok (cp', A') ->
  exists more,
    A' = (A ++ more)%list /\ run scale toks cp B = Ok (cp', (B ++ more)%list).
Proof.
  assert (Hsnoc : forall (A B : list point) q,
            A <> [] -> head A = head B ->
            (A ++ [q])%list <> [] /\ head (A ++ [q])%list = head (B ++ [q])%list).
  { intros [|a0 A] [|b0 B] q HA Hh; try contradiction; try discriminate.
    split; [discriminate|exact Hh]. }
  induction n as [|n IH]; intros toks cp A B cp' A' Hn HA Hh;
    (destruct toks as [|cmd rest];
     [intros [= <- <-]; exists []; rewrite !app_nil_r; auto|]);
    [simpl in Hn; lia|].
  simpl in Hn. cbn [run].
  destruct (String.eqb cmd "M" || String.eqb cmd "L").
  { destruct rest as [|a [|b rest2]]; try discriminate;
      [destruct (Float.of_string a); discriminate|].
    destruct (Float.of_string a) as [x| |]; try discriminate.
    destruct (Float.of_string b) as [y| |]; try discriminate.
    intros Hr.
    destruct (Hsnoc A B (Float.mul x scale, Float.mul y scale) HA Hh) as [HA' Hh'].
    destruct (IH rest2 _ _ _ _ _ ltac:(simpl in Hn; lia) HA' Hh' Hr) as (more & -> & HB).
    eexists (_ :: more). rewrite <- !app_assoc in *. split; [reflexivity|exact HB]. }
  destruct (String.eqb cmd "H").
  { destruct rest as [|a rest1]; try discriminate.
    destruct (Float.of_string a) as [x| |]; try discriminate.
    intros Hr.
    destruct (Hsnoc A B (Float.mul x scale, snd cp) HA Hh) as [HA' Hh'].
    destruct (IH rest1 _ _ _ _ _ ltac:(simpl in Hn; lia) HA' Hh' Hr) as (more & -> & HB).
    eexists (_ :: more). rewrite <- !app_assoc in *. split; [reflexivity|exact HB]. }
  destruct (String.eqb cmd "V").
  { destruct rest as [|a rest1]; try discriminate.
    destruct (Float.of_string a) as [x| |]; try discriminate.
    intros Hr.
    destruct (Hsnoc A B (fst cp, Float.mul x scale) HA Hh) as [HA' Hh'].
    destruct (IH rest1 _ _ _ _ _ ltac:(simpl in Hn; lia) HA' Hh' Hr) as (more & -> & HB).
    eexists (_ :: more). rewrite <- !app_assoc in *. split; [reflexivity|exact HB]. }
  destruct (String.eqb cmd "Z").
  { destruct A as [|a0 A0]; [contradiction|].
    destruct B as [|b0 B0]; [discriminate|]. injection Hh as <-.
    intros Hr.
    destruct (Hsnoc (a0 :: A0) (a0 :: B0) a0 HA eq_refl) as [HA' Hh'].
    destruct (IH rest _ _ _ _ _ ltac:(lia) HA' Hh' Hr) as (more & -> & HB).
    eexists (_ :: more). rewrite <- !app_assoc in *. split; [reflexivity|exact HB]. }
  intros Hr. exact (IH rest _ _ _ _ _ ltac:(lia) HA Hh Hr).
Qed.

(** X21: [Z] does not move the current point.  After accepted tokens [c0]
    that have made a point, the tokens that follow a [Z] make the points they
    make without the [Z]: the result with the [Z] is the result without it,
    with the first point of the path put in where the [Z] stands.  So an [H]
    right after the [Z] has the y it has without the [Z]; when [c0] holds no
    [Z], this is the y of the last point of [c0], not that of the first point
    the [Z] went back to. *)
Theorem close_keeps_current_point scale c0 pts0 p :
  interpret scale c0 = Ok pts0 ->
  head pts0 = Some p ->
  (forall c2 pts,
      interpret scale (c0 ++ c2)%list = Ok pts ->
      exists more,
        pts = (pts0 ++ more)%list
        /\ interpret scale (c0 ++ "Z" :: c2)%list = Ok (pts0 ++ p :: more)%list)
  /\ (forall q a x,
        "Z" ∉ c0 ->
        last pts0 = Some q ->
        Float.of_string a = Ok x ->
        interpret scale (c0 ++ ["Z"; "H"; a])%list
        = Ok (pts0 ++ [p; (Float.mul x scale, snd q)])%list).
Proof.
  rewrite !interpret_run.
  destruct (run scale c0 (Float.zero, Float.zero) []) as [[cp0 pts0']| |] eqn:H0;
    try discriminate.
  intros [= ->] Hp.
  destruct pts0 as [|p0 pts0]; [discriminate|]. injection Hp as ->.
  split.
  - intros c2 pts. rewrite !interpret_run.
    rewrite (run_app scale c2 _ c0 _ _ _ _ (Nat.le_refl _) H0).
    rewrite (run_app scale ("Z" :: c2) _ c0 _ _ _ _ (Nat.le_refl _) H0).
    cbn [run String.eqb Ascii.eqb Bool.eqb orb andb].
    destruct (run scale c2 cp0 (p :: pts0)) as [[cp2 pts2]| |] eqn:H2;
      try discriminate.
    intros [= <-].
    destruct (run_same_head scale _ c2 cp0 (p :: pts0) ((p :: pts0) ++ [p])%list
                cp2 pts2 (Nat.le_refl _) ltac:(discriminate) eq_refl H2)
      as (more & -> & HB).
    exists more. split; [reflexivity|]. rewrite HB. cbn [fmap Res_fmap snd].
    rewrite <- app_assoc. reflexivity.
  - intros q a x HZ Hq Ha. rewrite interpret_run.
    rewrite (run_app scale ["Z"; "H"; a] _ c0 _ _ _ _ (Nat.le_refl _) H0).
    destruct (run_current_point scale _ _ _ _ _ _ (Nat.le_refl _) HZ
                (or_introl eq_refl) H0) as [Hnil|Hcp]; [discriminate|].
    rewrite Hq in Hcp. injection Hcp as <-.
    cbn [run String.eqb Ascii.eqb Bool.eqb orb andb app].
    rewrite Ha. cbn [fmap Res_fmap snd]. rewrite <- app_assoc. reflexivity.
Qed.

Lemma close_keeps_current_point_witness :
  interpret default_scale ["M"; "1"; "1"; "L"; "2"; "2"; "Z"]
  = Ok [(Float.of_Z 100, Float.of_Z 100); (Float.of_Z 200, Float.of_Z 200);
        (Float.of_Z 100, Float.of_Z 100)]
  /\ exists more,
       [(Float.of_Z 100, Float.of_Z 100); (Float.of_Z 200, Float.of_Z 200);
        (Float.of_Z 100, Float.of_Z 100); (Float.of_Z 500, Float.of_Z 200)]
       = ([(Float.of_Z 100, Float.of_Z 100); (Float.of_Z 200, Float.of_Z 200);
           (Float.of_Z 100, Float.of_Z 100)] ++ more)%list
       /\ interpret default_scale
            (["M"; "1"; "1"; "L"; "2"; "2"; "Z"] ++ "Z" :: ["H"; "5"])%list
          = Ok ([(Float.of_Z 100, Float.of_Z 100); (Float.of_Z 200, Float.of_Z 200);
                 (Float.of_Z 100, Float.of_Z 100)]
                ++ (Float.of_Z 100, Float.of_Z 100) :: more)%list.
Proof.
  assert (H0 : interpret default_scale ["M"; "1"; "1"; "L"; "2"; "2"; "Z"]
    = Ok [(Float.of_Z 100, Float.of_Z 100); (Float.of_Z 200, Float.of_Z 200);
          (Float.of_Z 100, Float.of_Z 100)]) by (vm_compute; reflexivity).
  split; [exact H0|].
  apply (proj1 (close_keeps_current_point default_scale _ _
                  (Float.of_Z 100, Float.of_Z 100) H0 eq_refl) ["H"; "5"]).
  vm_compute. reflexivity.
Defined.

(** X22: for path data that begins with two commands among [M] and [L],
    the length the filter measures is the distance between the first two
    points the interpreter makes, taken before the scaling. *)
Theorem probe_measures_first_segment scale cmd1 cmd2 a b c e rest x1 y1 x2 y2 :
  cmd1 ∈ ["M"; "L"] -> cmd2 ∈ ["M"; "L"] ->
  Float.of_string a = Ok x1 -> Float.of_string b = Ok y1 ->
  Float.of_string c = Ok x2 -> Float.of_string e = Ok y2 ->
  first_segment_length (cmd1 :: a :: b :: cmd2 :: c :: e :: rest)
  = calculate_distance x1 y1 x2 y2
  /\ forall pts,
       interpret scale (cmd1 :: a :: b :: cmd2 :: c :: e :: rest) = Ok pts ->
       take 2 pts = [(Float.mul x1 scale, Float.mul y1 scale);
                     (Float.mul x2 scale, Float.mul y2 scale)].
Proof.
  intros H1 H2 Ha Hb Hc He. split.
  - unfold first_segment_length, index. cbn [lookup list_lookup].
    repeat first [rewrite bind_Ok | rewrite Ha | rewrite Hb | rewrite Hc
                 | rewrite He].
    reflexivity.
  - intros pts. rewrite interpret_run. cbn [run].
    assert (E1 : String.eqb cmd1 "M" || String.eqb cmd1 "L" = true).
    { apply elem_of_cons in H1 as [->|H1]; [reflexivity|].
      apply elem_of_cons in H1 as [->|H1]; [reflexivity|].
      apply elem_of_nil in H1. contradiction. }
    assert (E2 : String.eqb cmd2 "M" || String.eqb cmd2 "L" = true).
    { apply elem_of_cons in H2 as [->|H2]; [reflexivity|].
      apply elem_of_cons in H2 as [->|H2]; [reflexivity|].
      apply elem_of_nil in H2. contradiction. }
    rewrite E1, Ha, Hb. cbn [run app]. rewrite E2, Hc, He.
    destruct (run scale rest _ _) as [[cp' pts']| |] eqn:Hr; try discriminate.
    intros [= <-].
    destruct (run_points scale _ _ _ _ _ _ (Nat.le_refl _) Hr) as (more & -> & _).
    reflexivity.
Qed.

Lemma probe_measures_first_segment_witness :
  first_segment_length ["M"; "0"; "0"; "L"; "20"; "0"]
  = calculate_distance (Float.of_Z 0) (Float.of_Z 0) (Float.of_Z 20) (Float.of_Z 0).
Proof.
  apply (probe_measures_first_segment default_scale "M" "L" "0" "0" "20" "0" []);
    try (vm_compute; reflexivity);
    apply (bool_decide_unpack _); vm_compute; exact I.
Defined.

(** The filter does not ensure that the path data of a wall is well formed:
    this element is recorded, and drawing it raises. *)
Example wall_with_truncated_path_data :
  let element :=
    mkElement "path" {[ "d" := "M 0 0 L 20 0 H"; "style" := "stroke-width:2px" ]} [] in
  parse_svg_for_walls (Parsed element) default_min_segment_length
  = Ok ([Detected_potential_wall_paths 1;
         Sample_path_data [to_record element]], [to_record element])
  /\ well_formed false (tokenize (d_attr_of element)) = false
  /\ visualize_wall_paths (Parsed element) = Raise IndexError.
Proof. repeat split; vm_compute; reflexivity. Qed.
